(** * simple-runner: the task-graph reducer and the scheduling loop

    A shallow embedding of [packages/repro/src/simple-runner.ts].

    - JS objects whose key order is observed ([TaskGraph.tasks], read through
      [Object.keys]) are association lists in key order; task ids are never
      array-index strings, so that order is insertion order.
    - JS objects used only through lookup and assignment
      ([TaskGraph.dependencies], [results]) are [gmap string _];
      [Set<string>] is [gset string].
    - lodash's [omit] is applied to ids that name top-level keys; its
      deep-path reading of dotted names is not modelled.
    - [runExecutor] is an effect of the environment: a function of the task
      and of a world state, returning what the runner observes of the first
      [next()] of the stream.
    - The life-cycle callbacks and [logger.error] are sinks: they are
      recorded in a trace of calls.
    - The streams handed to [exhaustAsyncIterator] are drained concurrently
      with the later rounds and may be unbounded; the embedding records which
      streams were handed over ([continuedTasks]) and ends where the loop
      ends, before [Promise.all] awaits them. [exhaustAsyncIterator] is
      embedded on its own, over the results of the later [next()] calls. The
      project graph and workspace configuration read at the start of
      [runAllTasks] are opaque to the loop and are left out. *)

From stdpp Require Import base list strings gmap.

Open Scope string_scope.
Open Scope list_scope.
Open Scope nat_scope.

(** ** Data model *)

(** The statuses the runner produces. *)
Inductive TaskStatus := success | failure | skipped.

Global Instance TaskStatus_eq_dec : EqDecision TaskStatus.
Proof. solve_decision. Defined.

(** [target] and [overrides] are passed to [runExecutor] and not inspected. *)
Record Task := mkTask {
  id : string;
  target : string;
  overrides : list (string * string);
}.

Record TaskGraph := mkTaskGraph {
  tasks : list (string * Task);
  dependencies : gmap string (list string);
  roots : list string;
}.

(** [Object.keys(o)] *)
Definition keys {A} (o : list (string * A)) : list string := o.*1.

(** [o[k]] on an object kept as an association list. *)
Fixpoint prop {A} (o : list (string * A)) (k : string) : option A :=
  match o with
  | [] => None
  | (k', v) :: o' => if decide (k' = k) then Some v else prop o' k
  end.

(** ** lodash *)

(** [_.omit(object, paths)] *)
Definition omit {A} (object : list (string * A)) (paths : list string)
  : list (string * A) :=
  filter (λ kv, kv.1 ∉ paths) object.

(** [_.difference(array, values)]; an [undefined] array gives [[]]. *)
Definition difference (array : option (list string)) (values : list string)
  : list string :=
  match array with
  | Some a => filter (λ x, x ∉ values) a
  | None => []
  end.

(** [_.zipObject(props, values)]: assignments from left to right. *)
Definition zipObject {A} (props : list string) (values : list A)
  : gmap string A :=
  fold_left (λ m kv, <[kv.1 := kv.2]> m) (zip props values) ∅.

(** ** The graph reducer *)

Definition updateTaskGraph (old : TaskGraph) (completed : list string)
  : TaskGraph :=
  let tasks' := omit (tasks old) completed in
  let taskIds := keys tasks' in
  let dependencies' :=
    zipObject taskIds
      ((λ taskId, difference (dependencies old !! taskId) completed)
         <$> taskIds) in
  let roots' :=
    filter (λ taskId, (length <$> dependencies' !! taskId) = Some 0) taskIds in
  {| dependencies := dependencies'; roots := roots'; tasks := tasks' |}.

Arguments updateTaskGraph : simpl never.

(** The dependency list the reducer reads for a task id. *)
Definition depsOf (g : TaskGraph) (taskId : string) : list string :=
  default [] (dependencies g !! taskId).

(** ** The executor adapter and the trace of calls *)

(** What the runner sees of [runExecutor(...)] followed by [output.next()]:
    either of them raises, or [next()] resolves to [{ value, done }] where
    [value] is [undefined] ([None]) or carries a [success] flag. *)
Inductive Outcome :=
| Raise
| Next (value : option bool) (done : bool).

(** The calls the runner makes, in order. A [RunExecutor] entry also keeps
    the root id the task was found under and the value [results] had when
    the call was made; a round ends with its [UpdateTaskGraph] entry. *)
Inductive Event :=
| StartCommand
| EndCommand
| StartTasks (task : option Task)
| ScheduleTask (task : option Task)
| RunExecutor (rootTaskId : string) (task : Task)
              (resultsAtCall : gmap string TaskStatus)
| LoggerError
| EndTasks (code : nat) (status : TaskStatus) (task : option Task)
| UpdateTaskGraph (completed : list string).

(** How a piece of the runner ends: normally, or by an uncaught exception. *)
Inductive Completion (S : Type) :=
| Normal (st : S)
| Throw (st : S).
Arguments Normal {S} st.
Arguments Throw {S} st.

Definition stateOf {S} (c : Completion S) : S :=
  match c with Normal st => st | Throw st => st end.

Section Runner.

Context {World : Type}.
Variable runExecutor : Task → World → Outcome * World.

Record State := mkState {
  results : gmap string TaskStatus;
  todo : gset string;
  continuedTasks : list Task;
  todoTaskGraph : TaskGraph;
  completed : list string;
  world : World;
  trace : list Event;
}.

Definition log (st : State) (evs : list Event) : State :=
  {| results := results st; todo := todo st;
     continuedTasks := continuedTasks st;
     todoTaskGraph := todoTaskGraph st; completed := completed st;
     world := world st; trace := trace st ++ evs |}.

Definition statusOf (o : Outcome) : TaskStatus :=
  match o with
  | Next (Some true) _ => success
  | _ => failure
  end.

Definition codeOf (status : TaskStatus) : nat :=
  if decide (status = success) then 0 else 1.

(** The body of [for (const rootTaskId of todoTaskGraph.roots)]. *)
Definition runRoot (st : State) (rootTaskId : string) : Completion State :=
  match prop (tasks (todoTaskGraph st)) rootTaskId with
  | None =>
      (* [task] is [undefined]: [task.target] raises inside the [try] and is
         logged; [results[task.id]] raises outside of it. *)
      Throw (log st [StartTasks None; ScheduleTask None; LoggerError;
                     EndTasks 1 failure None])
  | Some task =>
      let '(o, w) := runExecutor task (world st) in
      let status := statusOf o in
      let yielded := match o with Next (Some _) _ => true | _ => false end in
      let continues := match o with Next (Some _) false => true | _ => false end in
      Normal
        {| results := <[id task := status]> (results st);
           todo := todo st ∖ {[id task]};
           continuedTasks :=
             if continues then continuedTasks st ++ [task]
             else continuedTasks st;
           todoTaskGraph := todoTaskGraph st;
           completed :=
             if yielded then completed st ++ [id task] else completed st;
           world := w;
           trace :=
             trace st
               ++ [StartTasks (Some task); ScheduleTask (Some task);
                   RunExecutor rootTaskId task (results st)]
               ++ (if yielded then [] else [LoggerError])
               ++ [EndTasks (codeOf status) status (Some task)] |}
  end.

Fixpoint forOf (rs : list string) (st : State) : Completion State :=
  match rs with
  | [] => Normal st
  | rootTaskId :: rs' =>
      match runRoot st rootTaskId with
      | Normal st' => forOf rs' st'
      | Throw st' => Throw st'
      end
  end.

(** One iteration of the [while] body. *)
Definition round (st : State) : Completion State :=
  let st0 :=
    {| results := results st; todo := todo st;
       continuedTasks := continuedTasks st;
       todoTaskGraph := todoTaskGraph st; completed := [];
       world := world st; trace := trace st |} in
  match forOf (roots (todoTaskGraph st0)) st0 with
  | Normal st1 =>
      Normal
        {| results := results st1; todo := todo st1;
           continuedTasks := continuedTasks st1;
           todoTaskGraph :=
             updateTaskGraph (todoTaskGraph st1) (completed st1);
           completed := completed st1;
           world := world st1;
           trace := trace st1 ++ [UpdateTaskGraph (completed st1)] |}
  | Throw st1 => Throw st1
  end.

(** [while (0 < todo.size && prevSize > todo.size)]. [None] is reserved for
    running out of fuel. *)
Fixpoint while (fuel : nat) (prevSize : nat) (st : State)
  : option (Completion State) :=
  if decide (0 < size (todo st) ∧ size (todo st) < prevSize) then
    match fuel with
    | 0 => None
    | S fuel' =>
        match round st with
        | Normal st' => while fuel' (size (todo st)) st'
        | Throw st' => Some (Throw st')
        end
    end
  else Some (Normal st).

Definition initialState (submitted : list Task) (taskGraph : TaskGraph)
    (w : World) (tr : list Event) : State :=
  {| results := zipObject (id <$> submitted) ((λ _, skipped) <$> submitted);
     todo := list_to_set (id <$> submitted);
     continuedTasks := [];
     todoTaskGraph := taskGraph;
     completed := [];
     world := w;
     trace := tr |}.

Definition runAllTasksFrom (submitted : list Task) (taskGraph : TaskGraph)
    (w : World) (tr : list Event) : option (Completion State) :=
  let st := initialState submitted taskGraph w tr in
  while (size (todo st) + 1) (size (todo st) + 1) st.

Definition runAllTasks (submitted : list Task) (taskGraph : TaskGraph)
    (w : World) : option (Completion State) :=
  runAllTasksFrom submitted taskGraph w [].

(** [simpleTasksRunner]: [startCommand], the run, and [endCommand] in the
    [finally] block. *)
Definition simpleTasksRunner (submitted : list Task) (taskGraph : TaskGraph)
    (w : World) : option (Completion State) :=
  match runAllTasksFrom submitted taskGraph w [StartCommand] with
  | Some (Normal st) => Some (Normal (log st [EndCommand]))
  | Some (Throw st) => Some (Throw (log st [EndCommand]))
  | None => None
  end.

(** Whole rounds that lead from one state of the loop to another. *)
Inductive rounds : State → State → Prop :=
| rounds_refl st : rounds st st
| rounds_step st st' st'' :
    round st = Normal st' → rounds st' st'' → rounds st st''.

End Runner.

Arguments State World : clear implicits.
Arguments results {World} s.
Arguments todo {World} s.
Arguments continuedTasks {World} s.
Arguments todoTaskGraph {World} s.
Arguments completed {World} s.
Arguments world {World} s.
Arguments trace {World} s.

(** ** Reading a trace *)

(** The root ids for which [runExecutor] was called, in call order. *)
Definition dispatchedKeys (tr : list Event) : list string :=
  omap (λ e, match e with RunExecutor k _ _ => Some k | _ => None end) tr.

(** The task ids handed to [runExecutor], one list per round; a round is
    closed by its call of [updateTaskGraph]. *)
Fixpoint roundsOf (tr : list Event) (cur : list string)
  : list (list string) :=
  match tr with
  | [] => match cur with [] => [] | _ => [cur] end
  | UpdateTaskGraph _ :: tr' => cur :: roundsOf tr' []
  | RunExecutor _ t _ :: tr' => roundsOf tr' (cur ++ [id t])
  | _ :: tr' => roundsOf tr' cur
  end.

(** A terminal status of a run ([success] or [failure]) is recorded. *)
Definition recorded (res : gmap string TaskStatus) (taskId : string) : Prop :=
  res !! taskId = Some success ∨ res !! taskId = Some failure.

(** Every call of [runExecutor] in the trace was made when each declared
    dependency (in [g0]) of the root it was made for had a terminal status in
    [results]. *)
Definition callsAfterDeps (g0 : TaskGraph) (tr : list Event) : Prop :=
  ∀ k t snap, RunExecutor k t snap ∈ tr →
    ∀ d, d ∈ depsOf g0 k → recorded snap d.

(** What the loop maintains about dependencies: a declared dependency of a
    task still in the graph is either still listed for it or has a terminal
    status, and so has every id completed in the current round. *)
Definition depsInv {World} (g0 : TaskGraph) (st : State World) : Prop :=
  callsAfterDeps g0 (trace st)
  ∧ (∀ k d, k ∈ keys (tasks (todoTaskGraph st)) → d ∈ depsOf g0 k →
       d ∈ depsOf (todoTaskGraph st) k ∨ recorded (results st) d)
  ∧ (∀ x, x ∈ completed st → recorded (results st) x).

(** The declared dependencies of the listed roots have a terminal status. *)
Definition depsDone {World} (g0 : TaskGraph) (rs : list string)
    (st : State World) : Prop :=
  ∀ k d, k ∈ rs → d ∈ depsOf g0 k → recorded (results st) d.

(** ** Shapes of task graphs *)

(** Every task is stored under its own id. *)
Definition idsAreKeys (g : TaskGraph) : Prop :=
  ∀ k t, (k, t) ∈ tasks g → id t = k.

(** Fully declared: every dependency reference names a task of the graph. *)
Definition declared (g : TaskGraph) : Prop :=
  ∀ k d, k ∈ keys (tasks g) → d ∈ depsOf g k → d ∈ keys (tasks g).

(** Every root has an empty dependency list. *)
Definition rootsFree (g : TaskGraph) : Prop :=
  ∀ r, r ∈ roots g → depsOf g r = [].

(** The roots are exactly the tasks with an empty dependency list. *)
Definition rootsExact (g : TaskGraph) : Prop :=
  ∀ k, k ∈ roots g ↔ k ∈ keys (tasks g) ∧ depsOf g k = [].

(** [d] is a declared dependency of [k]. *)
Definition dependsOn (g : TaskGraph) (d k : string) : Prop :=
  d ∈ depsOf g k.

(** No task of the graph starts an infinite chain of dependencies. *)
Definition acyclic (g : TaskGraph) : Prop :=
  ∀ k, k ∈ keys (tasks g) → Acc (dependsOn g) k.

(** What the loop maintains on a well-formed graph whose tasks are the
    submitted ones ([ids] is the set of submitted ids, [g0] the submitted
    graph): the tasks left in the graph are those still in [todo], the keys
    of [results] are the submitted ids, and a submitted id that left [todo]
    has a terminal status. *)
Definition schedInv {World} (g0 : TaskGraph) (ids : gset string)
    (st : State World) : Prop :=
  (∀ k t, (k, t) ∈ tasks (todoTaskGraph st) → (k, t) ∈ tasks g0)
  ∧ idsAreKeys (todoTaskGraph st)
  ∧ declared (todoTaskGraph st)
  ∧ rootsExact (todoTaskGraph st)
  ∧ acyclic (todoTaskGraph st)
  ∧ (∀ k, k ∈ todo st ↔ k ∈ keys (tasks (todoTaskGraph st)))
  ∧ (∀ k, k ∈ todo st → k ∈ ids)
  ∧ dom (results st) = ids
  ∧ (∀ k, k ∈ ids → k ∈ todo st ∨ recorded (results st) k).

(** ** Sample inputs *)

Definition taskA : Task := mkTask "A" "app:build" [].
Definition taskB : Task := mkTask "B" "app:test" [].

(** [B] depends on [A]. *)
Definition graphAB : TaskGraph :=
  {| tasks := [("A", taskA); ("B", taskB)];
     dependencies := {[ "A" := []; "B" := ["A"] ]};
     roots := ["A"] |}.

(** [A] and [B] depend on each other. *)
Definition graphCycle : TaskGraph :=
  {| tasks := [("A", taskA); ("B", taskB)];
     dependencies := {[ "A" := ["B"]; "B" := ["A"] ]};
     roots := [] |}.

(** [B] has a dependency on [X], which is not a task of the graph. *)
Definition graphDangling : TaskGraph :=
  {| tasks := [("B", taskB)];
     dependencies := {[ "B" := ["X"] ]};
     roots := [] |}.

(** An adapter whose every stream yields a first event with the given flag
    and is not exhausted by it. *)
Definition yields (flag : bool) (t : Task) (w : unit) : Outcome * unit :=
  (Next (Some flag) false, w).

(** An adapter that raises for task [A] and succeeds otherwise. *)
Definition raisesOnA (t : Task) (w : unit) : Outcome * unit :=
  (if decide (id t = "A") then Raise else Next (Some true) false, w).

(** An adapter whose stream for task [A] ends without a value. *)
Definition emptyOnA (t : Task) (w : unit) : Outcome * unit :=
  (if decide (id t = "A") then Next None true else Next (Some true) false, w).

(** ** More readings of a trace *)

(** The ids of the tasks handed to [runExecutor], in call order. *)
Definition dispatchedIds (tr : list Event) : list string :=
  omap (λ e, match e with RunExecutor _ t _ => Some (id t) | _ => None end) tr.

(** The completed lists passed to [updateTaskGraph], one per finished round. *)
Definition updates (tr : list Event) : list (list string) :=
  omap (λ e, match e with UpdateTaskGraph c => Some c | _ => None end) tr.

(** The arguments of the [startTasks] calls and of the [endTasks] calls. *)
Definition startsOf (tr : list Event) : list (option Task) :=
  omap (λ e, match e with StartTasks t => Some t | _ => None end) tr.

Definition endsOf (tr : list Event) : list (option Task) :=
  omap (λ e, match e with EndTasks _ _ t => Some t | _ => None end) tr.

(** The calls made by one pass of the [for] body: the adapter yielded a
    first event, or it raised (or its stream gave no value), or the root id
    named no task. *)
Inductive taskBlock : list Event → Prop :=
| block_event k t res s :
    s = success ∨ s = failure →
    taskBlock [StartTasks (Some t); ScheduleTask (Some t);
               RunExecutor k t res; EndTasks (codeOf s) s (Some t)]
| block_error k t res :
    taskBlock [StartTasks (Some t); ScheduleTask (Some t);
               RunExecutor k t res; LoggerError;
               EndTasks 1 failure (Some t)]
| block_undefined :
    taskBlock [StartTasks None; ScheduleTask None; LoggerError;
               EndTasks 1 failure None].

(** Traces made of such passes and of calls of [updateTaskGraph]. *)
Inductive loopTrace : list Event → Prop :=
| loop_nil : loopTrace []
| loop_block tr b : loopTrace tr → taskBlock b → loopTrace (tr ++ b)
| loop_update tr c : loopTrace tr → loopTrace (tr ++ [UpdateTaskGraph c]).

(** What the loop keeps between [results], [todo], [continuedTasks] and the
    adapter calls made so far ([ids] is the set of submitted ids). *)
Definition bookkeeping {World} (ids : gset string) (st : State World) : Prop :=
  dom (results st) = ids ∪ list_to_set (dispatchedIds (trace st))
  ∧ todo st = ids ∖ list_to_set (dispatchedIds (trace st))
  ∧ (∀ k, results st !! k = Some skipped
          ↔ k ∈ ids ∧ k ∉ dispatchedIds (trace st))
  ∧ (∀ k, k ∈ dispatchedIds (trace st) → recorded (results st) k)
  ∧ (∀ t, t ∈ continuedTasks st → ∃ k res, RunExecutor k t res ∈ trace st)
  ∧ length (continuedTasks st) ≤ length (dispatchedIds (trace st)).


(** What the loop maintains when every call of the adapter yields ([g0] is
    the submitted graph): keys and roots are distinct, the roots are tasks
    of the graph, and the ids handed to the adapter so far are distinct
    tasks of [g0] that have left the graph. *)
Definition onceInv {World} (g0 : TaskGraph) (st : State World) : Prop :=
  (∀ k t, (k, t) ∈ tasks (todoTaskGraph st) → (k, t) ∈ tasks g0)
  ∧ NoDup (keys (tasks (todoTaskGraph st)))
  ∧ NoDup (roots (todoTaskGraph st))
  ∧ (∀ r, r ∈ roots (todoTaskGraph st) → r ∈ keys (tasks (todoTaskGraph st)))
  ∧ NoDup (dispatchedIds (trace st))
  ∧ (∀ k, k ∈ dispatchedIds (trace st) →
       k ∈ keys (tasks g0) ∧ k ∉ keys (tasks (todoTaskGraph st))).

(** ** [exhaustAsyncIterator] *)

(** What a call of [output.next()] made by the drain does: it resolves to an
    event whose [done] flag is given ([undefined] counts as [false]), or it
    rejects. *)
Inductive NextResult :=
| Resolves (done : bool)
| Rejects.

(** How the drain ends, with the number of [next()] calls made on the
    iterator by then. *)
Inductive Drain :=
| Exhausted (calls : nat)
| Raised (calls : nat).

(** [exhaustAsyncIterator(output, event)]: [output i] is the result of the
    [i]-th call of [output.next()] from now on, [calls] counts the calls
    already made, and [done] is [event.done] ([false] for the default
    event). [None] is reserved for running out of fuel. *)
Fixpoint exhaustAsyncIterator (fuel : nat) (output : nat → NextResult)
    (calls : nat) (done : bool) : option Drain :=
  if done then Some (Exhausted calls)
  else
    match fuel with
    | 0 => None
    | S fuel' =>
        match output calls with
        | Resolves done' => exhaustAsyncIterator fuel' output (S calls) done'
        | Rejects => Some (Raised (S calls))
        end
    end.

(** A stream with two more events before its end, one that rejects at
    its third call, and one that never ends. *)
Definition twoMore (i : nat) : NextResult := Resolves (bool_decide (2 ≤ i)).

Definition rejectsThird (i : nat) : NextResult :=
  if decide (i = 2) then Rejects else Resolves false.

Definition endless (i : nat) : NextResult := Resolves false.


(** A root that names no task. *)
Definition graphBadRoot : TaskGraph :=
  {| tasks := [("A", taskA)];
     dependencies := {[ "A" := [] ]};
     roots := ["A"; "Z"] |}.

(** * Properties *)

(** ** Objects, [omit], [difference], [zipObject] *)

Lemma filter_agree {A} (P Q : A → Prop) `{!∀ x, Decision (P x)}
    `{!∀ x, Decision (Q x)} (l : list A) :
  (∀ x, x ∈ l → P x ↔ Q x) → filter P l = filter Q l.
Proof.
  induction l as [|x l IH]; intros Hall; [done|].
  rewrite !filter_cons.
  assert (P x ↔ Q x) as Hx by (apply Hall, list_elem_of_here).
  rewrite IH by (intros y Hy; apply Hall; by apply list_elem_of_further).
  destruct (decide (P x)), (decide (Q x)); tauto.
Qed.

Lemma prop_Some_elem {A} (o : list (string * A)) k v :
  prop o k = Some v → (k, v) ∈ o.
Proof.
  induction o as [|[k' v'] o IH]; simpl; [done|].
  case_decide as Hk.
  - intros [= ->]. subst. apply list_elem_of_here.
  - intros H. apply list_elem_of_further. auto.
Qed.

Lemma prop_is_Some {A} (o : list (string * A)) k :
  is_Some (prop o k) ↔ k ∈ keys o.
Proof.
  unfold keys. induction o as [|[k' v'] o IH]; simpl.
  - split; [intros [? [=]] | intros H; by apply elem_of_nil in H].
  - rewrite elem_of_cons. case_decide as Hk.
    + split; [intros _; by left | intros _; by eexists].
    + rewrite IH. split; [by right | intros [->|?]; done].
Qed.

Lemma prop_None {A} (o : list (string * A)) k :
  prop o k = None ↔ k ∉ keys o.
Proof. rewrite <- prop_is_Some, eq_None_not_Some. done. Qed.

Lemma prop_omit {A} (o : list (string * A)) paths k :
  prop (omit o paths) k = if decide (k ∈ paths) then None else prop o k.
Proof.
  unfold omit. induction o as [|[k' v'] o IH]; simpl.
  - by case_decide.
  - rewrite filter_cons. simpl. destruct (decide (k' ∉ paths)) as [Hn|Hn].
    + simpl. destruct (decide (k' = k)) as [->|Hne].
      * by rewrite decide_False.
      * done.
    + rewrite IH. destruct (decide (k ∈ paths)) as [|Hk]; [done|].
      destruct (decide (k' = k)) as [->|Hne]; done.
Qed.

Lemma elem_of_omit {A} (o : list (string * A)) paths kv :
  kv ∈ omit o paths ↔ kv ∈ o ∧ kv.1 ∉ paths.
Proof. unfold omit. rewrite list_elem_of_filter. tauto. Qed.

Lemma keys_omit {A} (o : list (string * A)) paths :
  keys (omit o paths) = filter (λ k, k ∉ paths) (keys o).
Proof.
  unfold keys, omit. induction o as [|[k v] o IH]; [done|].
  rewrite fmap_cons, !filter_cons. simpl.
  destruct (decide (k ∉ paths)); [rewrite fmap_cons|]; by rewrite IH.
Qed.

Lemma elem_of_keys_omit {A} (o : list (string * A)) paths k :
  k ∈ keys (omit o paths) ↔ k ∈ keys o ∧ k ∉ paths.
Proof. rewrite keys_omit, list_elem_of_filter. tauto. Qed.

Lemma zipObject_acc_lookup {A B} (h : B → string) (f : string → A)
    (l : list B) (m : gmap string A) k :
  fold_left (λ m kv, <[kv.1 := kv.2]> m)
            (zip (h <$> l) ((λ x, f (h x)) <$> l)) m !! k
  = if decide (k ∈ h <$> l) then Some (f k) else m !! k.
Proof.
  revert m. induction l as [|x l IH]; intros m.
  - rewrite decide_False; [done|]. apply not_elem_of_nil.
  - rewrite !fmap_cons. cbn [zip_with fold_left fst snd].
    rewrite IH. destruct (decide (k ∈ h <$> l)) as [Hin|Hin].
    + rewrite decide_True; [done|]. by apply list_elem_of_further.
    + destruct (decide (h x = k)) as [<-|Hne].
      * rewrite lookup_insert_eq, decide_True; [done|]. apply list_elem_of_here.
      * rewrite lookup_insert_ne by done.
        rewrite decide_False; [done|]. rewrite elem_of_cons.
        intros [?|?]; congruence.
Qed.

Lemma zipObject_lookup {A B} (h : B → string) (f : string → A)
    (l : list B) k :
  zipObject (h <$> l) ((λ x, f (h x)) <$> l) !! k
  = if decide (k ∈ h <$> l) then Some (f k) else None.
Proof. unfold zipObject. by rewrite zipObject_acc_lookup, lookup_empty. Qed.

Lemma zipObject_lookup_keys {A} (f : string → A) (ks : list string) k :
  zipObject ks (f <$> ks) !! k = if decide (k ∈ ks) then Some (f k) else None.
Proof.
  pose proof (zipObject_lookup (λ x, x) f ks k) as H.
  by rewrite list_fmap_id in H.
Qed.

Lemma difference_depsOf g k values :
  difference (dependencies g !! k) values
  = filter (λ x, x ∉ values) (depsOf g k).
Proof. unfold depsOf. by destruct (dependencies g !! k). Qed.

(** ** The graph reducer *)

Lemma updateTaskGraph_tasks g c :
  tasks (updateTaskGraph g c) = omit (tasks g) c.
Proof. done. Qed.

Lemma updateTaskGraph_dependencies g c k :
  dependencies (updateTaskGraph g c) !! k
  = if decide (k ∈ keys (omit (tasks g) c))
    then Some (filter (λ x, x ∉ c) (depsOf g k)) else None.
Proof.
  unfold updateTaskGraph. simpl.
  rewrite (zipObject_lookup_keys (λ taskId, difference (dependencies g !! taskId) c)).
  case_decide; [|done]. by rewrite difference_depsOf.
Qed.

Lemma updateTaskGraph_depsOf g c k :
  depsOf (updateTaskGraph g c) k
  = if decide (k ∈ keys (omit (tasks g) c))
    then filter (λ x, x ∉ c) (depsOf g k) else [].
Proof.
  unfold depsOf at 1. rewrite updateTaskGraph_dependencies. by case_decide.
Qed.

Lemma updateTaskGraph_roots g c :
  roots (updateTaskGraph g c)
  = filter (λ k, filter (λ x, x ∉ c) (depsOf g k) = [])
           (keys (omit (tasks g) c)).
Proof.
  change (roots (updateTaskGraph g c)) with
    (filter (λ taskId,
       (length <$> dependencies (updateTaskGraph g c) !! taskId) = Some 0)
       (keys (omit (tasks g) c))).
  apply filter_agree. intros k Hk.
  rewrite updateTaskGraph_dependencies, decide_True by done. simpl.
  split.
  - intros [= H]. by apply nil_length_inv.
  - intros ->. done.
Qed.

Lemma elem_of_updateTaskGraph_roots g c k :
  k ∈ roots (updateTaskGraph g c)
  ↔ k ∈ keys (tasks (updateTaskGraph g c))
    ∧ depsOf (updateTaskGraph g c) k = [].
Proof.
  rewrite updateTaskGraph_roots, list_elem_of_filter, updateTaskGraph_tasks.
  rewrite updateTaskGraph_depsOf. split.
  - intros [H1 H2]. by rewrite decide_True.
  - intros [H1 H2]. by rewrite decide_True in H2.
Qed.


(** C4. [updateTaskGraph g c] is a function of [g] and [c] that builds a new
    graph: its [tasks] are those of [g] without exactly the keys listed in
    [c] (a key outside [c] stays, with its task); the dependency list of each
    remaining task is its old list ([[]] when it had none) without the ids of
    [c], and no other task has a list; its [roots] are exactly the remaining
    ids whose pruned list is empty, in key order. *)
Theorem updateTaskGraph_spec (g : TaskGraph) (c : list string) :
  let g' := updateTaskGraph g c in
  tasks g' = filter (λ kv, kv.1 ∉ c) (tasks g)
  ∧ (∀ k, prop (tasks g') k = if decide (k ∈ c) then None else prop (tasks g) k)
  ∧ (∀ k, k ∈ keys (tasks g') ↔ k ∈ keys (tasks g) ∧ k ∉ c)
  ∧ (∀ k, k ∈ keys (tasks g') →
       dependencies g' !! k = Some (filter (λ x, x ∉ c) (depsOf g k)))
  ∧ (∀ k, k ∉ keys (tasks g') → dependencies g' !! k = None)
  ∧ roots g'
    = filter (λ k, filter (λ x, x ∉ c) (depsOf g k) = []) (keys (tasks g'))
  ∧ (∀ k, k ∈ roots g'
          ↔ k ∈ keys (tasks g') ∧ filter (λ x, x ∉ c) (depsOf g k) = []).
Proof.
  intros g'. subst g'. split_and!.
  - done.
  - apply prop_omit.
  - intros k. rewrite updateTaskGraph_tasks. apply elem_of_keys_omit.
  - intros k Hk. rewrite updateTaskGraph_dependencies.
    by rewrite decide_True.
  - intros k Hk. rewrite updateTaskGraph_dependencies.
    by rewrite decide_False.
  - apply updateTaskGraph_roots.
  - intros k. rewrite updateTaskGraph_roots, list_elem_of_filter. tauto.
Qed.

(** Witness for C4: completing [A] in the two-task graph. *)
Lemma updateTaskGraph_spec_witness :
  tasks (updateTaskGraph graphAB ["A"]) = [("B", taskB)]
  ∧ dependencies (updateTaskGraph graphAB ["A"]) !! "B" = Some []
  ∧ roots (updateTaskGraph graphAB ["A"]) = ["B"].
Proof.
  destruct (updateTaskGraph_spec graphAB ["A"])
    as (Ht & _ & _ & Hd & _ & Hr & _).
  split_and!.
  - by rewrite Ht.
  - rewrite Hd; [done|]. rewrite Ht. apply list_elem_of_here.
  - rewrite Hr, Ht. done.
Defined.

Lemma filter_not_elem_of_twice {A} `{EqDecision A} (a b u l : list A) :
  (∀ x, x ∈ u ↔ x ∈ a ∨ x ∈ b) →
  filter (λ x, x ∉ b) (filter (λ x, x ∉ a) l) = filter (λ x, x ∉ u) l.
Proof.
  intros Hu. rewrite list_filter_filter. apply list_filter_iff.
  intros x. rewrite Hu. tauto.
Qed.

(** C8. Reducing by [a] and then by [b] gives the same graph as reducing once
    by any list [u] that holds exactly the ids of [a] and of [b]. *)
Theorem updateTaskGraph_twice (g : TaskGraph) (a b u : list string) :
  (∀ x, x ∈ u ↔ x ∈ a ∨ x ∈ b) →
  updateTaskGraph (updateTaskGraph g a) b = updateTaskGraph g u.
Proof.
  intros Hu.
  assert (omit (omit (tasks g) a) b = omit (tasks g) u) as Htasks.
  { unfold omit. rewrite list_filter_filter. apply list_filter_iff.
    intros kv. rewrite Hu. tauto. }
  assert (∀ k, k ∈ keys (omit (tasks g) u) →
            filter (λ x, x ∉ b) (depsOf (updateTaskGraph g a) k)
            = filter (λ x, x ∉ u) (depsOf g k)) as Hdeps.
  { intros k Hk. rewrite updateTaskGraph_depsOf.
    rewrite decide_True.
    - by apply filter_not_elem_of_twice.
    - apply elem_of_keys_omit in Hk as [Hk Hku].
      apply elem_of_keys_omit. split; [done|]. rewrite Hu in Hku. tauto. }
  assert (dependencies (updateTaskGraph (updateTaskGraph g a) b)
          = dependencies (updateTaskGraph g u)) as Hd.
  { apply map_eq. intros k. rewrite !updateTaskGraph_dependencies.
    rewrite updateTaskGraph_tasks, Htasks.
    case_decide as Hk; [|done]. f_equal. by apply Hdeps. }
  assert (roots (updateTaskGraph (updateTaskGraph g a) b)
          = roots (updateTaskGraph g u)) as Hr.
  { rewrite !updateTaskGraph_roots, updateTaskGraph_tasks, Htasks.
    apply filter_agree. intros k Hk. by rewrite Hdeps. }
  destruct (updateTaskGraph (updateTaskGraph g a) b) as [t1 d1 r1] eqn:E1.
  destruct (updateTaskGraph g u) as [t2 d2 r2] eqn:E2.
  simpl in *.
  assert (t1 = t2) as ->.
  { transitivity (tasks (updateTaskGraph (updateTaskGraph g a) b));
      [by rewrite E1|].
    rewrite !updateTaskGraph_tasks, Htasks.
    change (omit (tasks g) u) with (tasks (updateTaskGraph g u)).
    by rewrite E2. }
  by subst.
Qed.

(** Witness for C8 on the two-task graph. *)
Lemma updateTaskGraph_twice_witness :
  updateTaskGraph (updateTaskGraph graphAB ["A"]) ["B"]
  = updateTaskGraph graphAB ["A"; "B"].
Proof.
  apply (updateTaskGraph_twice graphAB ["A"] ["B"] ["A"; "B"]).
  intros x. rewrite !elem_of_cons, !elem_of_nil. tauto.
Defined.

(** C9, as stated, fails: ["X"] is in the completed list and is not a task
    of the graph, [B] remains and references ["X"], yet after the reduction
    the reference is gone and [B] has become a root. *)
Lemma dangling_reference_pruned :
  ("X" ∈ ["X"])
  ∧ ("X" ∉ keys (tasks graphDangling))
  ∧ ("B" ∈ keys (tasks (updateTaskGraph graphDangling ["X"])))
  ∧ depsOf graphDangling "B" = ["X"]
  ∧ depsOf (updateTaskGraph graphDangling ["X"]) "B" = []
  ∧ roots (updateTaskGraph graphDangling ["X"]) = ["B"].
Proof.
  repeat split; try by vm_compute.
  - apply list_elem_of_here.
  - intros H. vm_compute in H. apply list_elem_of_singleton in H. done.
  - vm_compute. apply list_elem_of_here.
Qed.

(** C9, amended. For an id [x] of the completed list that is not a key of
    [tasks]: it removes no task (the remaining tasks are those of the
    reduction by the other completed ids), and every reference to [x] is
    pruned from the remaining dependency lists, which are otherwise those of
    the reduction by the other completed ids; a remaining task whose list
    holds nothing else is a root. *)
Theorem updateTaskGraph_absent_id (g : TaskGraph) (c : list string) (x : string) :
  x ∈ c → x ∉ keys (tasks g) →
  let c' := filter (λ y, y ≠ x) c in
  tasks (updateTaskGraph g c) = tasks (updateTaskGraph g c')
  ∧ (∀ k, depsOf (updateTaskGraph g c) k
          = filter (λ y, y ≠ x) (depsOf (updateTaskGraph g c') k))
  ∧ (∀ k, x ∉ depsOf (updateTaskGraph g c) k)
  ∧ (∀ k, k ∈ roots (updateTaskGraph g c)
          ↔ k ∈ keys (tasks (updateTaskGraph g c'))
            ∧ filter (λ y, y ≠ x) (depsOf (updateTaskGraph g c') k) = []).
Proof.
  intros Hx Hnk c'.
  assert (omit (tasks g) c = omit (tasks g) c') as Htasks.
  { unfold omit. apply filter_agree. intros [k t] Hkt. simpl.
    unfold c'. rewrite list_elem_of_filter.
    assert (k ≠ x).
    { intros ->. apply Hnk. unfold keys. apply list_elem_of_fmap.
      by exists (x, t). }
    tauto. }
  assert (∀ k, depsOf (updateTaskGraph g c) k
               = filter (λ y, y ≠ x) (depsOf (updateTaskGraph g c') k)) as Hd.
  { intros k. rewrite !updateTaskGraph_depsOf, <- Htasks.
    case_decide; [|done].
    rewrite list_filter_filter. apply list_filter_iff. intros y.
    unfold c'. rewrite list_elem_of_filter.
    destruct (decide (y = x)) as [->|]; tauto. }
  split_and!.
  - by rewrite !updateTaskGraph_tasks.
  - done.
  - intros k. rewrite Hd, list_elem_of_filter. tauto.
  - intros k. rewrite elem_of_updateTaskGraph_roots, Hd.
    by rewrite !updateTaskGraph_tasks, Htasks.
Qed.

(** Witness for C9 (amended) on the graph with a dangling reference. *)
Lemma updateTaskGraph_absent_id_witness :
  tasks (updateTaskGraph graphDangling ["X"])
  = tasks (updateTaskGraph graphDangling (filter (λ y, y ≠ "X") ["X"]))
  ∧ (∀ k, depsOf (updateTaskGraph graphDangling ["X"]) k
          = filter (λ y, y ≠ "X")
              (depsOf (updateTaskGraph graphDangling
                         (filter (λ y, y ≠ "X") ["X"])) k))
  ∧ (∀ k, "X" ∉ depsOf (updateTaskGraph graphDangling ["X"]) k)
  ∧ (∀ k, k ∈ roots (updateTaskGraph graphDangling ["X"])
          ↔ k ∈ keys (tasks (updateTaskGraph graphDangling
                               (filter (λ y, y ≠ "X") ["X"])))
            ∧ filter (λ y, y ≠ "X")
                (depsOf (updateTaskGraph graphDangling
                           (filter (λ y, y ≠ "X") ["X"])) k) = []).
Proof.
  apply (updateTaskGraph_absent_id graphDangling ["X"] "X").
  - apply list_elem_of_here.
  - intros H. vm_compute in H. apply list_elem_of_singleton in H. done.
Defined.

(** ** The scheduling loop: one root *)

Lemma runAllTasks_eq {World} (runExecutor : Task → World → Outcome * World)
    submitted g w :
  runAllTasks runExecutor submitted g w
  = let st := initialState submitted g w [] in
    while runExecutor (size (todo st) + 1) (size (todo st) + 1) st.
Proof. done. Qed.

Section RunnerFacts.

Context {World : Type}.
Variable runExecutor : Task → World → Outcome * World.

Local Abbreviation runRoot := (runRoot runExecutor).
Local Abbreviation forOf := (forOf runExecutor).
Local Abbreviation round := (round runExecutor).
Local Abbreviation while := (while runExecutor).
Local Abbreviation runAllTasks := (runAllTasks runExecutor).

Lemma statusOf_terminal o : statusOf o = success ∨ statusOf o = failure.
Proof. destruct o as [|[[]|] ?]; simpl; auto. Qed.

Lemma recorded_insert res k s d :
  s = success ∨ s = failure →
  recorded res d → recorded (<[k := s]> res) d.
Proof.
  intros Hs Hd. unfold recorded. destruct (decide (k = d)) as [->|Hne].
  - rewrite lookup_insert_eq. destruct Hs as [->| ->]; auto.
  - by rewrite lookup_insert_ne.
Qed.

Lemma recorded_insert_eq res k s :
  s = success ∨ s = failure → recorded (<[k := s]> res) k.
Proof.
  intros Hs. unfold recorded. rewrite lookup_insert_eq.
  destruct Hs as [->| ->]; auto.
Qed.

Lemma runRoot_undefined (st : State World) k :
  prop (tasks (todoTaskGraph st)) k = None →
  runRoot st k
  = Throw (log st [StartTasks None; ScheduleTask None; LoggerError;
                   EndTasks 1 failure None]).
Proof. intros H. unfold runRoot. by rewrite H. Qed.

Lemma runRoot_defined (st : State World) k task o w :
  prop (tasks (todoTaskGraph st)) k = Some task →
  runExecutor task (world st) = (o, w) →
  ∃ st', runRoot st k = Normal st'
    ∧ results st' = <[id task := statusOf o]> (results st)
    ∧ todo st' = todo st ∖ {[id task]}
    ∧ todoTaskGraph st' = todoTaskGraph st
    ∧ completed st'
      = (if (match o with Next (Some _) _ => true | _ => false end)
         then completed st ++ [id task] else completed st)
    ∧ world st' = w
    ∧ trace st'
      = trace st
          ++ [StartTasks (Some task); ScheduleTask (Some task);
              RunExecutor k task (results st)]
          ++ (if (match o with Next (Some _) _ => true | _ => false end)
              then [] else [LoggerError])
          ++ [EndTasks (codeOf (statusOf o)) (statusOf o) (Some task)].
Proof.
  intros Hp He. unfold runRoot. rewrite Hp, He. eexists. split; [done|].
  simpl. done.
Qed.

(** What one pass over a root leaves unchanged or only extends. *)
Lemma runRoot_frame (st : State World) k :
  let st' := stateOf (runRoot st k) in
  todoTaskGraph st' = todoTaskGraph st
  ∧ (∀ d, recorded (results st) d → recorded (results st') d)
  ∧ (∀ x, x ∈ completed st' → x ∈ completed st ∨ recorded (results st') x)
  ∧ ∃ evs, trace st' = trace st ++ evs
      ∧ (∀ k' t snap, RunExecutor k' t snap ∈ evs →
           k' = k ∧ snap = results st)
      ∧ dispatchedKeys evs
        = match runRoot st k with Normal _ => [k] | Throw _ => [] end.
Proof.
  destruct (prop (tasks (todoTaskGraph st)) k) as [task|] eqn:Hp.
  - destruct (runExecutor task (world st)) as [o w] eqn:He.
    destruct (runRoot_defined st k task o w Hp He)
      as (st' & -> & Hres & Htodo & Hg & Hc & Hw & Htr).
    simpl. split_and!.
    + done.
    + intros d Hd. rewrite Hres. apply recorded_insert; [|done].
      apply statusOf_terminal.
    + intros x. rewrite Hc, Hres.
      destruct o as [|[b|] dn]; auto.
      rewrite elem_of_app, list_elem_of_singleton. intros [?| ->]; [auto|].
      right. apply recorded_insert_eq, statusOf_terminal.
    + eexists. split; [exact Htr|]. split.
      * intros k' t snap Hin.
        destruct o as [|[b|] dn]; simpl in Hin;
          decompose_list_elem_of; by simplify_eq.
      * destruct o as [|[b|] dn]; done.
  - rewrite (runRoot_undefined st k Hp). simpl. split_and!; auto.
    eexists. split; [done|]. split; [|done].
    intros k' t snap Hin. decompose_list_elem_of; simplify_eq.
Qed.

(** ** The scheduling loop: a round *)

Lemma dispatchedKeys_app tr1 tr2 :
  dispatchedKeys (tr1 ++ tr2) = dispatchedKeys tr1 ++ dispatchedKeys tr2.
Proof. apply omap_app. Qed.

Lemma forOf_frame rs (st : State World) :
  let st' := stateOf (forOf rs st) in
  todoTaskGraph st' = todoTaskGraph st
  ∧ (∀ d, recorded (results st) d → recorded (results st') d)
  ∧ ∃ evs, trace st' = trace st ++ evs
      ∧ match forOf rs st with
        | Normal _ => dispatchedKeys evs = rs
        | Throw _ => dispatchedKeys evs `prefix_of` rs
        end.
Proof.
  revert st. induction rs as [|k rs IH]; intros st; simpl.
  - split_and!; auto. exists []. by rewrite app_nil_r.
  - destruct (runRoot_frame st k) as (Hg & Hmono & _ & evs & Htr & _ & Hk).
    destruct (runRoot st k) as [st1|st1] eqn:Hrun; simpl in *.
    + destruct (IH st1) as (Hg' & Hmono' & evs' & Htr' & Hk').
      split_and!.
      * by rewrite Hg'.
      * auto.
      * exists (evs ++ evs'). rewrite Htr', Htr, app_assoc. split; [done|].
        rewrite dispatchedKeys_app, Hk. simpl.
        destruct (forOf rs st1); simpl in *.
        -- by rewrite Hk'.
        -- by apply prefix_cons.
    + split_and!; auto. exists evs. split; [done|]. rewrite Hk.
      apply prefix_nil.
Qed.

Lemma runRoot_depsInv g0 (st : State World) k :
  depsInv g0 st → (∀ d, d ∈ depsOf g0 k → recorded (results st) d) →
  depsInv g0 (stateOf (runRoot st k)).
Proof.
  intros (Ha & Hb & Hc) Hk.
  destruct (runRoot_frame st k) as (Hg & Hmono & Hcpl & evs & Htr & Hev & _).
  split_and!.
  - intros k' t snap Hin d Hd. rewrite Htr, elem_of_app in Hin.
    destruct Hin as [Hin|Hin]; [by eapply Ha|].
    apply Hev in Hin as [-> ->]. by apply Hk.
  - intros k' d Hk' Hd. rewrite Hg in *.
    destruct (Hb k' d Hk' Hd); auto.
  - intros x Hx. destruct (Hcpl x Hx); auto.
Qed.

Lemma forOf_depsInv g0 rs (st : State World) :
  depsInv g0 st → depsDone g0 rs st →
  depsInv g0 (stateOf (forOf rs st)).
Proof.
  revert st. induction rs as [|k rs IH]; intros st Hinv Hdone; simpl; [done|].
  pose proof (runRoot_depsInv g0 st k Hinv) as Hinv'.
  destruct (runRoot_frame st k) as (_ & Hmono & _).
  destruct (runRoot st k) as [st1|st1] eqn:Hrun; simpl in *.
  - apply IH.
    + apply Hinv'. intros d Hd. apply (Hdone k d); [apply list_elem_of_here|done].
    + intros k' d Hk' Hd. apply Hmono, (Hdone k' d); [|done].
      by apply list_elem_of_further.
  - apply Hinv'. intros d Hd. apply (Hdone k d); [apply list_elem_of_here|done].
Qed.

Lemma round_depsInv g0 (st : State World) :
  depsInv g0 st ∧ depsDone g0 (roots (todoTaskGraph st)) st →
  let st' := stateOf (round st) in
  depsInv g0 st' ∧ depsDone g0 (roots (todoTaskGraph st')) st'.
Proof.
  intros [(Ha & Hb & Hc) Hdone]. unfold round.
  set (st0 := {| results := results st; todo := todo st;
                 continuedTasks := continuedTasks st;
                 todoTaskGraph := todoTaskGraph st; completed := [];
                 world := world st; trace := trace st |}).
  assert (depsInv g0 st0) as Hinv0.
  { split_and!; [done|done|]. intros x Hx. by apply elem_of_nil in Hx. }
  assert (depsDone g0 (roots (todoTaskGraph st0)) st0) as Hdone0 by done.
  pose proof (forOf_depsInv g0 _ st0 Hinv0 Hdone0) as Hinv1.
  destruct (forOf_frame (roots (todoTaskGraph st0)) st0)
    as (Hg & Hmono & _).
  destruct (forOf (roots (todoTaskGraph st0)) st0) as [st1|st1] eqn:Hfor;
    simpl in *.
  - destruct Hinv1 as (Ha1 & Hb1 & Hc1).
    assert (∀ k d, k ∈ keys (tasks (updateTaskGraph (todoTaskGraph st1)
                                      (completed st1))) →
              d ∈ depsOf g0 k →
              d ∈ depsOf (updateTaskGraph (todoTaskGraph st1) (completed st1)) k
              ∨ recorded (results st1) d) as Hb'.
    { intros k d Hk Hd. rewrite updateTaskGraph_depsOf.
      rewrite updateTaskGraph_tasks in Hk. rewrite decide_True by done.
      apply elem_of_keys_omit in Hk as [Hk _].
      destruct (Hb1 k d Hk Hd) as [Hin|?]; [|auto].
      destruct (decide (d ∈ completed st1)) as [Hdc|Hdc]; [auto|].
      left. by apply list_elem_of_filter. }
    split; [split_and!|].
    + intros k t snap Hin. simpl in Hin. rewrite elem_of_app in Hin.
      destruct Hin as [Hin|Hin]; [by eapply Ha1|].
      apply list_elem_of_singleton in Hin. done.
    + done.
    + done.
    + intros k d Hk Hd. simpl.
      apply elem_of_updateTaskGraph_roots in Hk as [Hk Hnil].
      destruct (Hb' k d Hk Hd) as [Hin|?]; [|done].
      rewrite Hnil in Hin. by apply elem_of_nil in Hin.
  - split; [done|]. rewrite Hg. intros k d Hk Hd. by apply Hmono, (Hdone k d).
Qed.

(** ** The scheduling loop: the [while] *)

Lemma while_total (fuel prevSize : nat) (st : State World) :
  prevSize ≤ fuel → ∃ c, while fuel prevSize st = Some c.
Proof.
  revert prevSize st. induction fuel as [|fuel IH]; intros prevSize st Hle; simpl.
  - rewrite decide_False by lia. eauto.
  - case_decide as Hc; [|eauto].
    destruct (round st) as [st'|st']; [|eauto]. apply IH. lia.
Qed.

Lemma while_inv (P : State World → Prop) :
  (∀ st, P st → P (stateOf (round st))) →
  ∀ fuel prevSize st c,
    P st → while fuel prevSize st = Some c → P (stateOf c).
Proof.
  intros Hround. induction fuel as [|fuel IH]; intros prevSize st c HP; simpl.
  - case_decide; [done|]. by intros [= <-].
  - case_decide; [|by intros [= <-]].
    specialize (Hround st HP).
    destruct (round st) as [st'|st'] eqn:Hr; simpl in *.
    + by apply IH.
    + by intros [= <-].
Qed.

Lemma runAllTasks_total submitted g w :
  ∃ c, runAllTasks submitted g w = Some c.
Proof. rewrite runAllTasks_eq. apply while_total. lia. Qed.

Lemma round_dispatch_order (st : State World) :
  ∃ evs, trace (stateOf (round st)) = trace st ++ evs
    ∧ match round st with
      | Normal _ => dispatchedKeys evs = roots (todoTaskGraph st)
      | Throw _ => dispatchedKeys evs `prefix_of` roots (todoTaskGraph st)
      end.
Proof.
  unfold round.
  set (st0 := {| results := results st; todo := todo st;
                 continuedTasks := continuedTasks st;
                 todoTaskGraph := todoTaskGraph st; completed := [];
                 world := world st; trace := trace st |}).
  destruct (forOf_frame (roots (todoTaskGraph st0)) st0)
    as (_ & _ & evs & Htr & Hk).
  destruct (forOf (roots (todoTaskGraph st0)) st0) as [st1|st1]; simpl in *.
  - exists (evs ++ [UpdateTaskGraph (completed st1)]).
    rewrite Htr, app_assoc. split; [done|].
    by rewrite dispatchedKeys_app, Hk, app_nil_r.
  - by exists evs.
Qed.

(** C3. When every root of the submitted graph has an empty dependency list,
    the run returns, and every call of the executor adapter in its trace was
    made when each declared dependency of the dispatched root already had
    status success or failure in [results]. In a round that finishes, the
    adapter is called for the roots of that round's graph, in their order;
    in a round cut short by an exception, for a prefix of them. *)
Theorem dispatch_after_dependencies submitted g w :
  rootsFree g →
  (∃ c, runAllTasks submitted g w = Some c
     ∧ callsAfterDeps g (trace (stateOf c)))
  ∧ (∀ st : State World,
       ∃ evs, trace (stateOf (round st)) = trace st ++ evs
         ∧ match round st with
           | Normal _ => dispatchedKeys evs = roots (todoTaskGraph st)
           | Throw _ => dispatchedKeys evs `prefix_of` roots (todoTaskGraph st)
           end).
Proof.
  intros Hroots. split; [|apply round_dispatch_order].
  destruct (runAllTasks_total submitted g w) as [c Hc].
  exists c. split; [done|].
  rewrite runAllTasks_eq in Hc.
  eapply (while_inv
    (λ st, depsInv g st ∧ depsDone g (roots (todoTaskGraph st)) st)
    (round_depsInv g)) in Hc; [by destruct Hc as [[? _] _]|].
  split; [split_and!|].
  - intros k t snap Hin. by apply elem_of_nil in Hin.
  - auto.
  - intros x Hx. by apply elem_of_nil in Hx.
  - intros k d Hk Hd. simpl in Hk. rewrite (Hroots k Hk) in Hd.
    by apply elem_of_nil in Hd.
Qed.

(** ** Adapter errors *)

Lemma forOf_cons_normal k rs (st st' : State World) :
  runRoot st k = Normal st' → forOf (k :: rs) st = forOf rs st'.
Proof. intros H. simpl. by rewrite H. Qed.

Lemma forOf_normal rs (st : State World) :
  (∀ r, r ∈ rs → r ∈ keys (tasks (todoTaskGraph st))) →
  ∃ st', forOf rs st = Normal st'.
Proof.
  revert st. induction rs as [|k rs IH]; intros st Hrs; simpl; [eauto|].
  assert (k ∈ keys (tasks (todoTaskGraph st))) as Hk
    by apply Hrs, list_elem_of_here.
  apply prop_is_Some in Hk as [task Hp].
  destruct (runExecutor task (world st)) as [o w] eqn:He.
  destruct (runRoot_defined st k task o w Hp He) as (st' & -> & _ & _ & Hg & _).
  apply IH. intros r Hr. rewrite Hg. by apply Hrs, list_elem_of_further.
Qed.

Lemma round_normal (st : State World) :
  (∀ r, r ∈ roots (todoTaskGraph st) → r ∈ keys (tasks (todoTaskGraph st))) →
  ∃ st', round st = Normal st'
    ∧ (∀ r, r ∈ roots (todoTaskGraph st') → r ∈ keys (tasks (todoTaskGraph st'))).
Proof.
  intros Hrs. unfold round.
  set (st0 := {| results := results st; todo := todo st;
                 continuedTasks := continuedTasks st;
                 todoTaskGraph := todoTaskGraph st; completed := [];
                 world := world st; trace := trace st |}).
  destruct (forOf_normal (roots (todoTaskGraph st0)) st0 Hrs) as [st1 ->].
  eexists. split; [done|]. simpl. intros r Hr.
  by apply elem_of_updateTaskGraph_roots in Hr as [? _].
Qed.

Lemma while_normal (P : State World → Prop) :
  (∀ st, P st → ∃ st', round st = Normal st' ∧ P st') →
  ∀ fuel prevSize st c,
    P st → while fuel prevSize st = Some c →
    ∃ st', c = Normal st' ∧ P st' ∧ rounds runExecutor st st'.
Proof.
  intros Hround. induction fuel as [|fuel IH]; intros prevSize st c HP; simpl.
  - case_decide; [done|]. intros [= <-]. eexists. split_and!; eauto using rounds.
  - case_decide; [|intros [= <-]; eexists; split_and!; eauto using rounds].
    destruct (Hround st HP) as (st1 & Hr & HP1). rewrite Hr. intros Hw.
    destruct (IH _ _ _ HP1 Hw) as (st' & -> & HP' & Hrs).
    exists st'. split_and!; eauto using rounds.
Qed.

Lemma runAllTasks_normal submitted g w :
  (∀ r, r ∈ roots g → r ∈ keys (tasks g)) →
  ∃ st, runAllTasks submitted g w = Some (Normal st)
    ∧ rounds runExecutor (initialState submitted g w []) st.
Proof.
  intros Hrs. destruct (runAllTasks_total submitted g w) as [c Hc].
  rewrite Hc. rewrite runAllTasks_eq in Hc.
  eapply (while_normal
    (λ st, ∀ r, r ∈ roots (todoTaskGraph st) →
                r ∈ keys (tasks (todoTaskGraph st)))
    round_normal) in Hc; [|done].
  destruct Hc as (st & -> & _ & Hr). eauto.
Qed.

(** C5. For a dispatched task the pass over its root ends normally and the
    loop goes on with the remaining roots. The status put in [results] is
    success exactly when the first event carries a true flag and failure for
    a false flag; when the adapter raises, it is failure, the error is
    logged, and the life cycle is told code 1. Whatever the adapter does,
    a run on a graph whose roots are tasks of the graph returns normally. *)
Theorem adapter_outcome_status :
  (∀ (st : State World) k task o w,
     prop (tasks (todoTaskGraph st)) k = Some task →
     runExecutor task (world st) = (o, w) →
     ∃ st', runRoot st k = Normal st'
       ∧ (∀ rs, forOf (k :: rs) st = forOf rs st')
       ∧ results st' !! id task = Some (statusOf o)
       ∧ (∀ flag dn, o = Next (Some flag) dn →
            (statusOf o = success ↔ flag = true)
            ∧ (statusOf o = failure ↔ flag = false))
       ∧ (o = Raise →
            statusOf o = failure
            ∧ completed st' = completed st
            ∧ trace st'
              = trace st
                  ++ [StartTasks (Some task); ScheduleTask (Some task);
                      RunExecutor k task (results st); LoggerError;
                      EndTasks 1 failure (Some task)]))
  ∧ (∀ submitted g w,
       (∀ r, r ∈ roots g → r ∈ keys (tasks g)) →
       ∃ st, runAllTasks submitted g w = Some (Normal st)).
Proof.
  split.
  - intros st k task o w Hp He.
    destruct (runRoot_defined st k task o w Hp He)
      as (st' & Hrun & Hres & _ & _ & Hc & _ & Htr).
    exists st'. split_and!.
    + done.
    + intros rs. by apply forOf_cons_normal.
    + by rewrite Hres, lookup_insert_eq.
    + intros [] dn ->; simpl; split; split; done.
    + intros ->. by rewrite Hc, Htr.
  - intros submitted g w Hrs.
    destruct (runAllTasks_normal submitted g w Hrs) as (st & ? & _). eauto.
Qed.

(** ** Streams that end without a value *)










(** ** Graphs without roots *)

Lemma list_to_set_size_0 (l : list string) :
  size (list_to_set l : gset string) = 0 → l = [].
Proof.
  intros H. apply size_empty_inv in H. destruct l as [|x l]; [done|].
  exfalso. rewrite list_to_set_cons in H. set_solver.
Qed.

Lemma while_S fuel prevSize (st : State World) :
  while (S fuel) prevSize st
  = if decide (0 < size (todo st) ∧ size (todo st) < prevSize) then
      match round st with
      | Normal st' => while fuel (size (todo st)) st'
      | Throw st' => Some (Throw st')
      end
    else Some (Normal st).
Proof. done. Qed.

Lemma round_no_roots (st : State World) :
  roots (todoTaskGraph st) = [] →
  round st
  = Normal {| results := results st; todo := todo st;
              continuedTasks := continuedTasks st;
              todoTaskGraph := updateTaskGraph (todoTaskGraph st) [];
              completed := []; world := world st;
              trace := trace st ++ [UpdateTaskGraph []] |}.
Proof. intros H. unfold round. simpl. by rewrite H. Qed.

(** C7. When every root is a task with an empty dependency list and every
    task of the graph has a dependency, there is no root: the run returns
    normally after a single round (none for an empty submission) in which
    the adapter is never called, and [results] maps every submitted id to
    skipped and holds nothing else. *)
Theorem cycle_all_skipped submitted g w :
  (∀ r, r ∈ roots g → r ∈ keys (tasks g) ∧ depsOf g r = []) →
  (∀ k, k ∈ keys (tasks g) → depsOf g k ≠ []) →
  ∃ st, runAllTasks submitted g w = Some (Normal st)
    ∧ (∀ k, results st !! k
            = if decide (k ∈ id <$> submitted) then Some skipped else None)
    ∧ dispatchedKeys (trace st) = []
    ∧ trace st
      = match submitted with [] => [] | _ => [UpdateTaskGraph []] end.
Proof.
  intros Hroots Hdeps.
  assert (roots g = []) as Hnil.
  { destruct (roots g) as [|r rs] eqn:E; [done|]. exfalso.
    destruct (Hroots r) as [Hk Hd]; [apply list_elem_of_here|].
    by apply (Hdeps r). }
  assert (∀ k, zipObject (id <$> submitted) ((λ _, skipped) <$> submitted) !! k
               = if decide (k ∈ id <$> submitted) then Some skipped else None)
    as Hres.
  { intros k. apply (zipObject_lookup id (λ _, skipped)). }
  rewrite runAllTasks_eq. cbv zeta.
  set (st0 := initialState submitted g w []).
  rewrite Nat.add_1_r, while_S.
  case_decide as Hc.
  - rewrite (round_no_roots st0 Hnil).
    destruct (size (todo st0)) as [|n] eqn:Hn; [lia|].
    rewrite while_S, decide_False by (unfold st0 in *; simpl in *; lia).
    eexists. split; [done|]. simpl. split_and!; [done|done|].
    destruct submitted; [|done]. exfalso.
    change (size (∅ : gset string) = S n) in Hn. by rewrite size_empty in Hn.
  - eexists. split; [done|]. simpl. split_and!; [done|done|].
    assert (id <$> submitted = []) as Hs.
    { apply list_to_set_size_0. subst st0. simpl in Hc. lia. }
    by destruct submitted.
Qed.

(** ** Acyclic, fully declared graphs *)

Lemma Acc_sub {A} (R R' : A → A → Prop) x :
  (∀ a b, R' a b → R a b) → Acc R x → Acc R' x.
Proof. intros Hsub Hacc. induction Hacc as [x _ IH]. constructor. auto. Qed.

Lemma acyclic_has_root g k :
  declared g → Acc (dependsOn g) k → k ∈ keys (tasks g) →
  ∃ r, r ∈ keys (tasks g) ∧ depsOf g r = [].
Proof.
  intros Hdecl Hacc. induction Hacc as [k _ IH]. intros Hk.
  destruct (depsOf g k) as [|d ds] eqn:E; [eauto|].
  assert (d ∈ depsOf g k) as Hd by (rewrite E; apply list_elem_of_here).
  apply (IH d Hd). by apply (Hdecl k).
Qed.

Lemma updateTaskGraph_dependsOn g c d k :
  dependsOn (updateTaskGraph g c) d k → dependsOn g d k ∧ d ∉ c.
Proof.
  unfold dependsOn. rewrite updateTaskGraph_depsOf. case_decide.
  - rewrite list_elem_of_filter. tauto.
  - intros H'. by apply elem_of_nil in H'.
Qed.

Lemma forOf_yielding rs (st : State World) :
  idsAreKeys (todoTaskGraph st) →
  (∀ k t w0, (k, t) ∈ tasks (todoTaskGraph st) →
     ∃ flag dn w1, runExecutor t w0 = (Next (Some flag) dn, w1)) →
  (∀ r, r ∈ rs → r ∈ keys (tasks (todoTaskGraph st))) →
  ∃ st', forOf rs st = Normal st'
    ∧ todoTaskGraph st' = todoTaskGraph st
    ∧ todo st' = todo st ∖ list_to_set rs
    ∧ completed st' = completed st ++ rs
    ∧ dom (results st') = dom (results st) ∪ list_to_set rs
    ∧ (∀ d, recorded (results st) d → recorded (results st') d)
    ∧ (∀ r, r ∈ rs → recorded (results st') r).
Proof.
  revert st. induction rs as [|k rs IH]; intros st Hids Hy Hrs.
  - exists st. simpl. split_and!; try done.
    + set_solver.
    + by rewrite app_nil_r.
    + set_solver.
    + intros r Hr. by apply elem_of_nil in Hr.
  - assert (k ∈ keys (tasks (todoTaskGraph st))) as Hk
      by apply Hrs, list_elem_of_here.
    apply prop_is_Some in Hk as [task Hp].
    pose proof (prop_Some_elem _ _ _ Hp) as Hin.
    pose proof (Hids k task Hin) as Hid.
    destruct (Hy k task (world st) Hin) as (flag & dn & w1 & He).
    destruct (runRoot_defined st k task _ w1 Hp He)
      as (st1 & Hrun & Hres & Htodo & Hg & Hc & _).
    rewrite Hid in *.
    destruct (IH st1) as (st' & Hfor & Hg' & Htodo' & Hc' & Hdom' & Hmono' & Hrec').
    { by rewrite Hg. }
    { by rewrite Hg. }
    { intros r Hr. rewrite Hg. by apply Hrs, list_elem_of_further. }
    exists st'. split_and!.
    + by rewrite (forOf_cons_normal k rs st st1 Hrun).
    + by rewrite Hg'.
    + rewrite Htodo', Htodo, list_to_set_cons. set_solver.
    + by rewrite Hc', Hc, <- app_assoc.
    + rewrite Hdom', Hres, dom_insert_L, list_to_set_cons. set_solver.
    + intros d Hd. apply Hmono'. rewrite Hres.
      apply recorded_insert; [apply statusOf_terminal|done].
    + intros r Hr. apply elem_of_cons in Hr as [->|Hr]; [|by apply Hrec'].
      apply Hmono'. rewrite Hres. apply recorded_insert_eq, statusOf_terminal.
Qed.

Lemma round_schedInv g0 ids (st : State World) :
  (∀ k t w0, (k, t) ∈ tasks g0 →
     ∃ flag dn w1, runExecutor t w0 = (Next (Some flag) dn, w1)) →
  schedInv g0 ids st → 0 < size (todo st) →
  ∃ st', round st = Normal st' ∧ schedInv g0 ids st'
    ∧ size (todo st') < size (todo st).
Proof.
  intros Hy (Hsub & Hids & Hdecl & Hroots & Hacyc & Htodo & Hin & Hdom & Hrec)
    Hpos.
  unfold round.
  set (st0 := {| results := results st; todo := todo st;
                 continuedTasks := continuedTasks st;
                 todoTaskGraph := todoTaskGraph st; completed := [];
                 world := world st; trace := trace st |}).
  destruct (forOf_yielding (roots (todoTaskGraph st0)) st0)
    as (st1 & -> & Hg1 & Htodo1 & Hc1 & Hdom1 & Hmono1 & Hrec1).
  { done. }
  { intros k t w0 Hkt. by apply (Hy k), Hsub. }
  { intros r Hr. by apply Hroots in Hr as [? _]. }
  change (todoTaskGraph st0) with (todoTaskGraph st) in *.
  change (todo st0) with (todo st) in *.
  change (results st0) with (results st) in *.
  change (completed st0) with (@nil string) in *.
  rewrite app_nil_l in Hc1.
  eexists. split; [done|]. unfold schedInv. cbn [todoTaskGraph results todo].
  rewrite Hg1, Hc1, Htodo1.
  set (g := todoTaskGraph st) in *. set (rs := roots g) in *.
  assert (∀ k, k ∈ keys (tasks (updateTaskGraph g rs))
               ↔ k ∈ keys (tasks g) ∧ k ∉ rs) as Hkeys.
  { intros k. rewrite updateTaskGraph_tasks. apply elem_of_keys_omit. }
  split; [split_and!|].
  - intros k t Hkt. rewrite updateTaskGraph_tasks in Hkt.
    apply elem_of_omit in Hkt as [Hkt _]. by apply Hsub.
  - intros k t Hkt. rewrite updateTaskGraph_tasks in Hkt.
    apply elem_of_omit in Hkt as [Hkt _]. by apply Hids.
  - intros k d Hk Hd. apply updateTaskGraph_dependsOn in Hd as [Hd Hnd].
    apply Hkeys in Hk as [Hk _]. apply Hkeys. split; [|done].
    by apply (Hdecl k).
  - intros k. apply elem_of_updateTaskGraph_roots.
  - intros k Hk. apply Hkeys in Hk as [Hk _].
    apply (Acc_sub (dependsOn g)); [|by apply Hacyc].
    intros a b Hab. by apply updateTaskGraph_dependsOn in Hab as [? _].
  - intros k. rewrite Hkeys, elem_of_difference, elem_of_list_to_set, Htodo.
    done.
  - intros k Hk. apply elem_of_difference in Hk as [Hk _]. by apply Hin.
  - rewrite Hdom1, Hdom. apply set_eq. intros k.
    rewrite elem_of_union, elem_of_list_to_set. split; [|auto].
    intros [?|Hr]; [done|]. apply Hin, Htodo. by apply Hroots in Hr as [? _].
  - intros k Hk. destruct (Hrec k Hk) as [Hk'|Hk']; [|auto].
    destruct (decide (k ∈ rs)) as [Hr|Hr]; [auto|].
    left. rewrite elem_of_difference, elem_of_list_to_set. done.
  - apply size_pos_elem_of in Hpos as [k Hk]. apply Htodo in Hk.
    destruct (acyclic_has_root g k Hdecl (Hacyc k Hk) Hk) as (r & Hr & Hnil).
    assert (r ∈ rs) as Hroot by (apply Hroots; done).
    apply subset_size. split; [apply subseteq_difference_l; done|].
    intros Hsub'.
    assert (r ∈ todo st ∖ list_to_set rs) as Hbad
      by (apply Hsub'; by apply Htodo).
    apply elem_of_difference in Hbad as [_ Hbad]. apply Hbad.
    by apply elem_of_list_to_set.
Qed.

Lemma while_schedInv g0 ids fuel prevSize (st : State World) :
  (∀ k t w0, (k, t) ∈ tasks g0 →
     ∃ flag dn w1, runExecutor t w0 = (Next (Some flag) dn, w1)) →
  schedInv g0 ids st → size (todo st) < prevSize → prevSize ≤ fuel →
  ∃ st', while fuel prevSize st = Some (Normal st')
    ∧ schedInv g0 ids st' ∧ size (todo st') = 0.
Proof.
  intros Hy. revert prevSize st.
  induction fuel as [|fuel IH]; intros prevSize st Hinv Hlt Hle; [lia|].
  rewrite while_S. case_decide as Hc.
  - destruct (round_schedInv g0 ids st Hy Hinv) as (st1 & -> & Hinv1 & Hlt1);
      [lia|].
    apply IH; [done|done|lia].
  - exists st. split_and!; [done|done|lia].
Qed.

(** C2, amended. On an acyclic, fully declared graph whose tasks are stored
    under their ids, whose roots are exactly its tasks without dependencies
    and whose task ids are exactly the submitted ids, with an adapter whose
    every call for a task of the graph yields a first event carrying a
    success flag, the run returns normally; the keys of [results] are
    exactly the submitted ids and every status is success or failure. *)
Theorem run_reports_every_task submitted g w :
  idsAreKeys g → declared g → rootsExact g → acyclic g →
  (∀ k, k ∈ keys (tasks g) ↔ k ∈ id <$> submitted) →
  (∀ k t w0, (k, t) ∈ tasks g →
     ∃ flag dn w1, runExecutor t w0 = (Next (Some flag) dn, w1)) →
  ∃ st, runAllTasks submitted g w = Some (Normal st)
    ∧ dom (results st) = list_to_set (id <$> submitted)
    ∧ (∀ k s, results st !! k = Some s → s = success ∨ s = failure).
Proof.
  intros Hids Hdecl Hroots Hacyc Hnodes Hy.
  rewrite runAllTasks_eq. cbv zeta.
  set (st0 := initialState submitted g w []).
  set (ids := list_to_set (id <$> submitted) : gset string).
  assert (dom (results st0) = ids) as Hdom.
  { apply set_eq. intros k. rewrite elem_of_dom. unfold st0, ids. simpl.
    rewrite (zipObject_lookup id (λ _, skipped)), elem_of_list_to_set.
    case_decide; [by split; eauto|]. split; [by intros [? ?]|done]. }
  assert (schedInv g ids st0) as Hinv.
  { split_and!; try done.
    - intros k. unfold st0. simpl. by rewrite elem_of_list_to_set, Hnodes.
    - auto. }
  destruct (while_schedInv g ids (size (todo st0) + 1) (size (todo st0) + 1)
              st0 Hy Hinv) as (st & Hrun & Hinv' & Hdone); [lia|lia|].
  exists st. split; [done|].
  destruct Hinv' as (_ & _ & _ & _ & _ & _ & _ & Hdom' & Hrec').
  split; [done|]. intros k s Hks.
  assert (k ∈ ids) as Hk by (rewrite <- Hdom'; apply elem_of_dom; eauto).
  apply size_empty_inv in Hdone.
  destruct (Hrec' k Hk) as [Hk'|[Hk'|Hk']].
  - set_solver.
  - rewrite Hks in Hk'. left. congruence.
  - rewrite Hks in Hk'. right. congruence.
Qed.

(** ** A graph of two tasks *)

Lemma round_single (st : State World) k task o w :
  roots (todoTaskGraph st) = [k] →
  prop (tasks (todoTaskGraph st)) k = Some task →
  runExecutor task (world st) = (o, w) →
  let yielded := match o with Next (Some _) _ => true | _ => false end in
  ∃ st', round st = Normal st'
    ∧ results st' = <[id task := statusOf o]> (results st)
    ∧ todo st' = todo st ∖ {[id task]}
    ∧ todoTaskGraph st'
      = updateTaskGraph (todoTaskGraph st) (if yielded then [id task] else [])
    ∧ world st' = w
    ∧ trace st'
      = trace st
          ++ [StartTasks (Some task); ScheduleTask (Some task);
              RunExecutor k task (results st)]
          ++ (if yielded then [] else [LoggerError])
          ++ [EndTasks (codeOf (statusOf o)) (statusOf o) (Some task);
              UpdateTaskGraph (if yielded then [id task] else [])].
Proof.
  intros Hroots Hp He yielded. unfold round.
  set (st0 := {| results := results st; todo := todo st;
                 continuedTasks := continuedTasks st;
                 todoTaskGraph := todoTaskGraph st; completed := [];
                 world := world st; trace := trace st |}).
  change (todoTaskGraph st0) with (todoTaskGraph st). rewrite Hroots.
  destruct (runRoot_defined st0 k task o w Hp He)
    as (st1 & Hrun & Hres & Htodo & Hg & Hc & Hw & Htr).
  rewrite (forOf_cons_normal k [] st0 st1 Hrun). simpl.
  eexists. split; [done|]. simpl.
  rewrite Hres, Htodo, Hg, Hc, Hw, Htr. subst yielded.
  split_and!; try done.
  subst st0. destruct o as [|[?|] ?]; simpl; by rewrite <- ?app_assoc.
Qed.

(** The failing-event case of a two-task graph: where [tB] depends on [tA]
    and the first event of [tA] reports failure, the run returns normally,
    [tB] is dispatched in the second round, and [results] holds failure for
    [tA] and, for [tB], the status of its own call. *)
Theorem failed_dependency_unblocks (tA tB : Task) w dn wA oB wB :
  id tA ≠ id tB →
  runExecutor tA w = (Next (Some false) dn, wA) →
  runExecutor tB wA = (oB, wB) →
  ∃ st,
    runAllTasks [tA; tB]
      {| tasks := [(id tA, tA); (id tB, tB)];
         dependencies := {[ id tA := []; id tB := [id tA] ]};
         roots := [id tA] |} w
    = Some (Normal st)
    ∧ results st = {[ id tA := failure; id tB := statusOf oB ]}
    ∧ roundsOf (trace st) [] = [[id tA]; [id tB]].
Proof.
  intros Hne HeA HeB.
  set (g := {| tasks := [(id tA, tA); (id tB, tB)];
               dependencies := {[ id tA := []; id tB := [id tA] ]};
               roots := [id tA] |}).
  rewrite runAllTasks_eq. cbv zeta.
  set (st0 := initialState [tA; tB] g w []).
  assert (todo st0 = {[id tA; id tB]}) as Htodo0.
  { unfold st0. simpl. set_solver. }
  assert (size (todo st0) = 2) as Hsz0.
  { rewrite Htodo0, size_union by set_solver. by rewrite !size_singleton. }
  rewrite Hsz0. change (2 + 1) with 3.
  rewrite while_S, decide_True by lia.
  destruct (round_single st0 (id tA) tA (Next (Some false) dn) wA) as
    (st1 & -> & Hres1 & Htodo1 & Hg1 & Hw1 & Htr1); [done| |done|].
  { simpl. by rewrite decide_True. }
  cbn match in Hg1, Htr1.
  assert (prop (tasks (todoTaskGraph st1)) (id tB) = Some tB) as Hp1.
  { rewrite Hg1, updateTaskGraph_tasks, prop_omit.
    rewrite decide_False by (rewrite list_elem_of_singleton; congruence).
    simpl. rewrite decide_False by done. by rewrite decide_True. }
  assert (roots (todoTaskGraph st1) = [id tB]) as Hr1.
  { rewrite Hg1, updateTaskGraph_roots, keys_omit. simpl.
    rewrite !filter_cons, filter_nil.
    rewrite decide_False by (intros Hn; apply Hn, list_elem_of_here).
    rewrite decide_True by (rewrite list_elem_of_singleton; congruence).
    rewrite filter_cons, filter_nil. rewrite decide_True; [done|].
    unfold depsOf, g. simpl.
    rewrite lookup_insert_ne, lookup_singleton_eq by done. simpl.
    rewrite filter_cons, filter_nil.
    rewrite decide_False; [done|]. intros Hn. apply Hn, list_elem_of_here. }
  assert (size (todo st1) = 1) as Hsz1.
  { rewrite Htodo1, Htodo0.
    replace (({[id tA; id tB]} : gset string) ∖ {[id tA]})
      with ({[id tB]} : gset string) by set_solver.
    apply size_singleton. }
  rewrite while_S, decide_True by lia.
  destruct (round_single st1 (id tB) tB oB wB Hr1 Hp1) as
    (st2 & -> & Hres2 & Htodo2 & Hg2 & Hw2 & Htr2).
  { by rewrite Hw1. }
  assert (size (todo st2) = 0) as Hsz2.
  { rewrite Htodo2, Htodo1, Htodo0.
    replace ((({[id tA; id tB]} : gset string) ∖ {[id tA]}) ∖ {[id tB]})
      with (∅ : gset string) by set_solver.
    apply size_empty. }
  destruct (size (todo st1)) as [|n] eqn:E; [lia|].
  rewrite while_S, decide_False by lia.
  eexists. split; [done|]. split.
  - rewrite Hres2, Hres1. unfold st0. simpl. unfold zipObject. simpl.
    apply map_eq. intros k.
    destruct (decide (k = id tB)) as [->|HkB].
    + rewrite lookup_insert_eq, lookup_insert_ne, lookup_singleton_eq; done.
    + rewrite lookup_insert_ne by done.
      destruct (decide (k = id tA)) as [->|HkA].
      * by rewrite !lookup_insert_eq.
      * rewrite !lookup_insert_ne by done.
        rewrite lookup_singleton_ne by done. by rewrite lookup_empty.
  - rewrite Htr2, Htr1. unfold st0. simpl.
    destruct oB as [|[?|] ?]; done.
Qed.

End RunnerFacts.

(** ** The sample graphs *)

Lemma acyclic_of_rank g (rank : string → nat) :
  (∀ k d, d ∈ depsOf g k → rank d < rank k) → acyclic g.
Proof.
  intros Hrank k _.
  assert (∀ n x, rank x < n → Acc (dependsOn g) x) as Hacc.
  { induction n as [|n IH]; intros x Hx; [lia|].
    constructor. intros d Hd. apply IH. specialize (Hrank x d Hd). lia. }
  apply (Hacc (S (rank k))). lia.
Qed.

Lemma depsOf_graphAB k :
  depsOf graphAB k = if decide (k = "B") then ["A"] else [].
Proof.
  unfold depsOf, graphAB. cbn [dependencies].
  case_decide as Hk; [by subst|].
  destruct (decide (k = "A")) as [->|Hk']; [done|].
  by rewrite lookup_insert_ne, lookup_singleton_ne.
Qed.

Lemma graphAB_idsAreKeys : idsAreKeys graphAB.
Proof.
  intros k t Hkt. simpl in Hkt. decompose_list_elem_of; by simplify_eq.
Qed.

Lemma graphAB_declared : declared graphAB.
Proof.
  intros k d _ Hd. rewrite depsOf_graphAB in Hd. case_decide.
  - apply list_elem_of_singleton in Hd as ->. apply list_elem_of_here.
  - by apply elem_of_nil in Hd.
Qed.

Lemma graphAB_rootsExact : rootsExact graphAB.
Proof.
  intros k. rewrite depsOf_graphAB. simpl. split.
  - intros Hk. apply list_elem_of_singleton in Hk as ->.
    split; [apply list_elem_of_here|done].
  - intros [Hk Hd]. case_decide; [done|].
    simpl in Hk. decompose_list_elem_of; [|done].
    subst. apply list_elem_of_here.
Qed.

Lemma graphAB_rootsFree : rootsFree graphAB.
Proof. intros r Hr. by apply graphAB_rootsExact in Hr as [_ ?]. Qed.

Lemma graphAB_roots_keys r : r ∈ roots graphAB → r ∈ keys (tasks graphAB).
Proof. intros Hr. by apply graphAB_rootsExact in Hr as [? _]. Qed.

Lemma graphAB_keys_NoDup : NoDup (keys (tasks graphAB)).
Proof. apply (bool_decide_unpack _). by vm_compute. Qed.

Lemma graphAB_roots_NoDup : NoDup (roots graphAB).
Proof. apply (bool_decide_unpack _). by vm_compute. Qed.

Lemma graphAB_acyclic : acyclic graphAB.
Proof.
  apply (acyclic_of_rank graphAB (λ k, if decide (k = "B") then 1 else 0)).
  intros k d Hd. rewrite depsOf_graphAB in Hd. case_decide.
  - apply list_elem_of_singleton in Hd as ->. simpl. lia.
  - by apply elem_of_nil in Hd.
Qed.

(** C1 fails on the code: with an adapter that raises for [A], task [A] is
    handed to the adapter in the first round and again in the second; [B]
    is never dispatched and keeps status skipped. *)
Theorem raised_task_dispatched_again :
  ∃ st, runAllTasks raisesOnA [taskA; taskB] graphAB () = Some (Normal st)
    ∧ roundsOf (trace st) [] = [["A"]; ["A"]]
    ∧ results st = {[ "A" := failure; "B" := skipped ]}.
Proof. eexists. split; [by vm_compute|]. split; by vm_compute. Qed.

(** C6 fails on the code: in the graph where [B] depends on [A], when the
    adapter raises for [A], or when the stream of [A] ends without a value,
    the status of [A] is failure and [B] is never handed to the adapter: the
    adapter is called for [A] in both rounds and [B] keeps status skipped. *)
Theorem failed_dependency_blocks_dependent :
  (raisesOnA taskA () = (Raise, ())
   ∧ ∃ st, runAllTasks raisesOnA [taskA; taskB] graphAB () = Some (Normal st)
       ∧ dispatchedIds (trace st) = ["A"; "A"]
       ∧ results st = {[ "A" := failure; "B" := skipped ]})
  ∧ (emptyOnA taskA () = (Next None true, ())
     ∧ ∃ st, runAllTasks emptyOnA [taskA; taskB] graphAB () = Some (Normal st)
         ∧ dispatchedIds (trace st) = ["A"; "A"]
         ∧ results st = {[ "A" := failure; "B" := skipped ]}).
Proof.
  split; (split; [done|]); eexists; (split; [by vm_compute|]);
    split; by vm_compute.
Qed.

(** C2, as stated, fails: [graphAB] is acyclic and fully declared and its
    tasks include the only submitted task [B], the adapter always yields
    success, yet [results] has a key for the task [A] that was not
    submitted, and [B] keeps status skipped. *)
Lemma graph_only_task_reported :
  acyclic graphAB ∧ declared graphAB ∧ idsAreKeys graphAB
  ∧ rootsExact graphAB
  ∧ (∀ k, k ∈ id <$> [taskB] → k ∈ keys (tasks graphAB))
  ∧ ∃ st, runAllTasks (yields true) [taskB] graphAB () = Some (Normal st)
      ∧ results st = {[ "A" := success; "B" := skipped ]}
      ∧ ("A" ∈ dom (results st))
      ∧ ("A" ∉ (list_to_set (id <$> [taskB]) : gset string))
      ∧ results st !! "B" = Some skipped.
Proof.
  split_and!.
  - apply graphAB_acyclic.
  - apply graphAB_declared.
  - apply graphAB_idsAreKeys.
  - apply graphAB_rootsExact.
  - intros k Hk. apply list_elem_of_singleton in Hk as ->.
    by apply list_elem_of_further, list_elem_of_here.
  - eexists. split; [by vm_compute|]. split_and!.
    + by vm_compute.
    + apply elem_of_dom. exists success. by vm_compute.
    + rewrite elem_of_list_to_set. simpl. by rewrite list_elem_of_singleton.
    + by vm_compute.
Qed.

(** ** The theorems at the sample inputs *)

(** Witness for C2 (amended): [A] and [B] submitted with [graphAB] and an
    adapter that always yields success. *)
Lemma run_reports_every_task_witness :
  ∃ st, runAllTasks (yields true) [taskA; taskB] graphAB () = Some (Normal st)
    ∧ dom (results st) = list_to_set (id <$> [taskA; taskB])
    ∧ (∀ k s, results st !! k = Some s → s = success ∨ s = failure).
Proof.
  apply (run_reports_every_task (yields true) [taskA; taskB] graphAB ()).
  - apply graphAB_idsAreKeys.
  - apply graphAB_declared.
  - apply graphAB_rootsExact.
  - apply graphAB_acyclic.
  - done.
  - intros k t w0 _. by exists true, false, w0.
Defined.

(** Witness for C3: the same run. *)
Lemma dispatch_after_dependencies_witness :
  rootsFree graphAB
  ∧ ∃ c, runAllTasks (yields true) [taskA; taskB] graphAB () = Some c
      ∧ callsAfterDeps graphAB (trace (stateOf c)).
Proof.
  split; [apply graphAB_rootsFree|].
  apply (dispatch_after_dependencies (yields true) [taskA; taskB] graphAB ()
           graphAB_rootsFree).
Defined.

(** Witness for C5: the adapter raises for [A]. *)
Lemma adapter_outcome_status_witness :
  (∃ st', runRoot raisesOnA (initialState [taskA; taskB] graphAB () []) "A"
          = Normal st'
     ∧ results st' !! "A" = Some failure)
  ∧ ∃ st, runAllTasks raisesOnA [taskA; taskB] graphAB () = Some (Normal st).
Proof.
  destruct (adapter_outcome_status raisesOnA) as [Hstep Hrun]. split.
  - destruct (Hstep (initialState [taskA; taskB] graphAB () []) "A" taskA
                Raise () eq_refl eq_refl) as (st' & Hr & _ & Hres & _).
    by exists st'.
  - apply (Hrun [taskA; taskB] graphAB ()). apply graphAB_roots_keys.
Defined.

(** The failing-event case at the sample graph: both tasks report failure. *)
Lemma failed_dependency_unblocks_witness :
  ∃ st, runAllTasks (yields false) [taskA; taskB] graphAB () = Some (Normal st)
    ∧ results st = {[ "A" := failure; "B" := failure ]}
    ∧ roundsOf (trace st) [] = [["A"]; ["B"]].
Proof.
  apply (failed_dependency_unblocks (yields false) taskA taskB () false ()
           (Next (Some false) false) ()); done.
Defined.

(** Witness for C7: [A] and [B] depend on each other. *)
Lemma cycle_all_skipped_witness :
  ∃ st, runAllTasks (yields true) [taskA; taskB] graphCycle () = Some (Normal st)
    ∧ (∀ k, results st !! k
            = if decide (k ∈ id <$> [taskA; taskB]) then Some skipped else None)
    ∧ dispatchedKeys (trace st) = []
    ∧ trace st = [UpdateTaskGraph []].
Proof.
  apply (cycle_all_skipped (yields true) [taskA; taskB] graphCycle ()).
  - intros r Hr. by apply elem_of_nil in Hr.
  - intros k Hk. simpl in Hk. decompose_list_elem_of; subst; by vm_compute.
Defined.



(** * Further properties *)

(** ** The graph reducer *)

Lemma TaskGraph_eq g1 g2 :
  tasks g1 = tasks g2 → dependencies g1 = dependencies g2 →
  roots g1 = roots g2 → g1 = g2.
Proof. destruct g1, g2. simpl. by intros -> -> ->. Qed.

Lemma updateTaskGraph_agree g c c' :
  (∀ x, x ∈ c ↔ x ∈ c') → updateTaskGraph g c = updateTaskGraph g c'.
Proof.
  intros Hc.
  assert (omit (tasks g) c = omit (tasks g) c') as Ht.
  { unfold omit. apply list_filter_iff. intros kv. by rewrite Hc. }
  assert (∀ k, filter (λ x, x ∉ c) (depsOf g k)
               = filter (λ x, x ∉ c') (depsOf g k)) as Hf.
  { intros k. apply list_filter_iff. intros x. by rewrite Hc. }
  apply TaskGraph_eq.
  - by rewrite !updateTaskGraph_tasks.
  - apply map_eq. intros k. rewrite !updateTaskGraph_dependencies, Ht, Hf. done.
  - rewrite !updateTaskGraph_roots, Ht. apply filter_agree. intros k _.
    by rewrite Hf.
Qed.

Lemma updateTaskGraph_app g a b :
  updateTaskGraph (updateTaskGraph g a) b = updateTaskGraph g (a ++ b).
Proof.
  assert (omit (omit (tasks g) a) b = omit (tasks g) (a ++ b)) as Ht.
  { unfold omit. rewrite list_filter_filter. apply list_filter_iff.
    intros kv. rewrite elem_of_app. tauto. }
  assert (∀ k, k ∈ keys (omit (tasks g) (a ++ b)) →
            filter (λ x, x ∉ b) (depsOf (updateTaskGraph g a) k)
            = filter (λ x, x ∉ a ++ b) (depsOf g k)) as Hf.
  { intros k Hk. rewrite updateTaskGraph_depsOf, decide_True.
    - rewrite list_filter_filter. apply list_filter_iff.
      intros x. rewrite elem_of_app. tauto.
    - apply elem_of_keys_omit in Hk as [Hk Hn]. apply elem_of_keys_omit.
      rewrite elem_of_app in Hn. tauto. }
  apply TaskGraph_eq.
  - by rewrite !updateTaskGraph_tasks.
  - apply map_eq. intros k.
    rewrite !updateTaskGraph_dependencies, updateTaskGraph_tasks, Ht.
    case_decide; [|done]. by rewrite Hf.
  - rewrite !updateTaskGraph_roots, updateTaskGraph_tasks, Ht.
    apply filter_agree. intros k Hk. by rewrite Hf.
Qed.

(** X1. The reduction depends only on which ids are in the completed list:
    neither their order nor repetitions matter. *)
Theorem updateTaskGraph_same_ids (g : TaskGraph) (c c' : list string) :
  (∀ x, x ∈ c ↔ x ∈ c') → updateTaskGraph g c = updateTaskGraph g c'.
Proof. apply updateTaskGraph_agree. Qed.

(** X2. Reducing a reduced graph again by ids that were already completed,
    or by no id at all, changes nothing. *)
Theorem updateTaskGraph_absorbs (g : TaskGraph) (c c' : list string) :
  (∀ x, x ∈ c' → x ∈ c) →
  updateTaskGraph (updateTaskGraph g c) c' = updateTaskGraph g c.
Proof.
  intros Hsub. rewrite updateTaskGraph_app. apply updateTaskGraph_agree.
  intros x. rewrite elem_of_app. split; [intros [?|?]; auto|auto].
Qed.

(** X3. The reduction keeps what makes a graph well formed: tasks stay
    stored under their ids, keys stay distinct, a fully declared graph stays
    fully declared and an acyclic one acyclic; the remaining tasks are a
    sub-list of the old ones, in the old order. *)
Theorem updateTaskGraph_preserves (g : TaskGraph) (c : list string) :
  let g' := updateTaskGraph g c in
  tasks g' `sublist_of` tasks g
  ∧ (idsAreKeys g → idsAreKeys g')
  ∧ (NoDup (keys (tasks g)) → NoDup (keys (tasks g')))
  ∧ (declared g → declared g')
  ∧ (acyclic g → acyclic g').
Proof.
  intros g'. subst g'. split_and!.
  - rewrite updateTaskGraph_tasks. apply sublist_filter.
  - intros Hids k t Hkt. rewrite updateTaskGraph_tasks in Hkt.
    apply elem_of_omit in Hkt as [Hkt _]. by apply Hids.
  - intros Hnd. rewrite updateTaskGraph_tasks, keys_omit.
    by apply NoDup_filter.
  - intros Hdecl k d Hk Hd. apply updateTaskGraph_dependsOn in Hd as [Hd Hn].
    rewrite updateTaskGraph_tasks in *.
    apply elem_of_keys_omit in Hk as [Hk _]. apply elem_of_keys_omit.
    split; [|done]. by apply (Hdecl k).
  - intros Hacyc k Hk. rewrite updateTaskGraph_tasks in Hk.
    apply elem_of_keys_omit in Hk as [Hk _].
    apply (Acc_sub (dependsOn g)); [|by apply Hacyc].
    intros a b Hab. by apply updateTaskGraph_dependsOn in Hab as [? _].
Qed.

(** X4. Completing every task of a graph, or reducing a graph without
    tasks, leaves the graph with no task, no dependency list and no root,
    whatever [dependencies] and [roots] held. *)
Theorem updateTaskGraph_all (g : TaskGraph) (c : list string) :
  (∀ k, k ∈ keys (tasks g) → k ∈ c) →
  updateTaskGraph g c = {| tasks := []; dependencies := ∅; roots := [] |}.
Proof.
  intros Hall.
  assert (omit (tasks g) c = []) as Ht.
  { destruct (omit (tasks g) c) as [|[k t] l] eqn:E; [done|]. exfalso.
    assert ((k, t) ∈ omit (tasks g) c) as Hin
      by (rewrite E; apply list_elem_of_here).
    apply elem_of_omit in Hin as [Hin Hn]. apply Hn, Hall.
    unfold keys. apply list_elem_of_fmap. by exists (k, t). }
  apply TaskGraph_eq; cbn [tasks dependencies roots].
  - by rewrite updateTaskGraph_tasks.
  - apply map_eq. intros k.
    rewrite updateTaskGraph_dependencies, Ht, lookup_empty.
    rewrite decide_False; [done|]. apply not_elem_of_nil.
  - by rewrite updateTaskGraph_roots, Ht.
Qed.

(** ** [exhaustAsyncIterator] *)

Lemma exhaustAsyncIterator_skip n fuel output c :
  (∀ i, i < n → output (c + i) = Resolves false) →
  exhaustAsyncIterator (n + fuel) output c false
  = exhaustAsyncIterator fuel output (c + n) false.
Proof.
  revert c. induction n as [|n IH]; intros c Hpre.
  - by rewrite Nat.add_0_r.
  - cbn [Nat.add exhaustAsyncIterator].
    rewrite <- (Nat.add_0_r c) at 1. rewrite (Hpre 0) by lia.
    rewrite IH.
    + by rewrite Nat.add_succ_r.
    + intros i Hi. rewrite <- (Hpre (S i)) by lia. f_equal. lia.
Qed.

(** X5. The drain calls [next()] until the first call that ends the stream
    or rejects, and not once more: when the next [n] calls resolve to
    events that are not done and the one after them is done, it ends after
    [n + 1] calls; when that one rejects instead, the drain raises after
    [n + 1] calls. An event that is already done costs no call. *)
Theorem exhaustAsyncIterator_first_end (output : nat → NextResult)
    (c n fuel : nat) :
  (∀ i, i < n → output (c + i) = Resolves false) → n < fuel →
  (output (c + n) = Resolves true →
     exhaustAsyncIterator fuel output c false = Some (Exhausted (c + n + 1)))
  ∧ (output (c + n) = Rejects →
       exhaustAsyncIterator fuel output c false = Some (Raised (c + n + 1)))
  ∧ exhaustAsyncIterator fuel output c true = Some (Exhausted c).
Proof.
  intros Hpre Hfuel.
  replace fuel with (n + S (fuel - S n)) by lia.
  rewrite (exhaustAsyncIterator_skip n _ output c Hpre).
  replace (c + n + 1) with (S (c + n)) by lia.
  split_and!.
  - intros Hn. cbn [exhaustAsyncIterator]. rewrite Hn.
    by destruct (fuel - S n).
  - intros Hn. cbn [exhaustAsyncIterator]. by rewrite Hn.
  - by destruct (n + S (fuel - S n)).
Qed.

(** X6. On a stream whose events are never done the drain never returns:
    no amount of fuel gives a result. *)
Theorem exhaustAsyncIterator_endless (output : nat → NextResult) (c : nat) :
  (∀ i, output (c + i) = Resolves false) →
  ∀ fuel, exhaustAsyncIterator fuel output c false = None.
Proof.
  intros Hall fuel. revert c Hall.
  induction fuel as [|fuel IH]; intros c Hall; [done|].
  cbn [exhaustAsyncIterator].
  rewrite <- (Nat.add_0_r c) at 1. rewrite Hall.
  apply IH. intros i. rewrite <- (Hall (S i)). f_equal. lia.
Qed.

(** X7. Whenever the drain returns, it made its last call of [next()] on
    the first result that was done (then it ends) or rejected (then it
    raises), every earlier call having resolved to an event that was not
    done; it made no call exactly when the event it was given was done. *)
Theorem exhaustAsyncIterator_sound (output : nat → NextResult)
    (fuel c : nat) (done : bool) (r : Drain) :
  exhaustAsyncIterator fuel output c done = Some r →
  match r with
  | Exhausted m =>
      (done = true ∧ m = c)
      ∨ (done = false ∧ c < m ∧ output (m - 1) = Resolves true
         ∧ ∀ i, c ≤ i < m - 1 → output i = Resolves false)
  | Raised m =>
      done = false ∧ c < m ∧ output (m - 1) = Rejects
      ∧ ∀ i, c ≤ i < m - 1 → output i = Resolves false
  end.
Proof.
  revert c done. induction fuel as [|fuel IH]; intros c done.
  - destruct done; [|done]. intros [= <-]. by left.
  - destruct done; [intros [= <-]; by left|].
    cbn [exhaustAsyncIterator].
    destruct (output c) as [d|] eqn:Hc.
    + intros Hrun. specialize (IH (S c) d Hrun).
      destruct r as [m|m].
      * right. destruct IH as [[-> ->]|(-> & Hlt & Hlast & Hpre)].
        -- split_and!; [done|lia| |].
           ++ by replace (S c - 1) with c by lia.
           ++ intros i Hi. lia.
        -- split_and!; [done|lia|done|]. intros i Hi.
           destruct (decide (i = c)) as [->|]; [done|]. apply Hpre. lia.
      * destruct IH as (-> & Hlt & Hlast & Hpre).
        split_and!; [done|lia|done|]. intros i Hi.
        destruct (decide (i = c)) as [->|]; [done|]. apply Hpre. lia.
    + intros [= <-]. split_and!; [done|lia| |].
      * by replace (S c - 1) with c by lia.
      * intros i Hi. lia.
Qed.

(** Witness for X5: two more events, then the end. *)
Lemma exhaustAsyncIterator_first_end_witness :
  exhaustAsyncIterator 5 twoMore 0 false = Some (Exhausted 3).
Proof.
  destruct (exhaustAsyncIterator_first_end twoMore 0 2 5) as (Hend & _ & _).
  - intros i Hi. unfold twoMore. rewrite bool_decide_eq_false_2; [done|].
    simpl. lia.
  - lia.
  - by apply Hend.
Defined.

(** Witness for X6: the stream that never ends. *)
Lemma exhaustAsyncIterator_endless_witness :
  exhaustAsyncIterator 100 endless 0 false = None.
Proof. by apply (exhaustAsyncIterator_endless endless 0). Defined.

(** Witness for X7: the stream that rejects at its third call. *)
Lemma exhaustAsyncIterator_sound_witness :
  rejectsThird (3 - 1) = Rejects
  ∧ ∀ i, 0 ≤ i < 3 - 1 → rejectsThird i = Resolves false.
Proof.
  destruct (exhaustAsyncIterator_sound rejectsThird 5 0 false (Raised 3)
              eq_refl) as (_ & _ & Hlast & Hpre).
  by split.
Defined.

(** ** The scheduling loop: what every run keeps *)

Section RunnerMore.

Context {World : Type}.
Variable runExecutor : Task → World → Outcome * World.

Local Abbreviation runRoot := (runRoot runExecutor).
Local Abbreviation forOf := (forOf runExecutor).
Local Abbreviation round := (round runExecutor).
Local Abbreviation while := (while runExecutor).
Local Abbreviation runAllTasks := (runAllTasks runExecutor).

Lemma forOf_preserves (P : State World → Prop) :
  (∀ st k, P st → P (stateOf (runRoot st k))) →
  ∀ rs st, P st → P (stateOf (forOf rs st)).
Proof.
  intros Hstep. induction rs as [|k rs IH]; intros st HP; simpl; [done|].
  specialize (Hstep st k HP).
  destruct (runRoot st k) as [st1|st1]; simpl in *; auto.
Qed.

Lemma round_preserves (P : State World → Prop) :
  (∀ st k, P st → P (stateOf (runRoot st k))) →
  (∀ st, P st →
     P {| results := results st; todo := todo st;
          continuedTasks := continuedTasks st;
          todoTaskGraph := todoTaskGraph st; completed := [];
          world := world st; trace := trace st |}) →
  (∀ st, P st →
     P {| results := results st; todo := todo st;
          continuedTasks := continuedTasks st;
          todoTaskGraph := updateTaskGraph (todoTaskGraph st) (completed st);
          completed := completed st; world := world st;
          trace := trace st ++ [UpdateTaskGraph (completed st)] |}) →
  ∀ st, P st → P (stateOf (round st)).
Proof.
  intros Hstep Hpre Hpost st HP. unfold round.
  set (st0 := {| results := results st; todo := todo st;
                 continuedTasks := continuedTasks st;
                 todoTaskGraph := todoTaskGraph st; completed := [];
                 world := world st; trace := trace st |}).
  pose proof (forOf_preserves P Hstep (roots (todoTaskGraph st0)) st0
                (Hpre st HP)) as HP1.
  destruct (forOf (roots (todoTaskGraph st0)) st0) as [st1|st1];
    simpl in *; auto.
Qed.

Lemma run_preserves (P : State World → Prop) submitted g w c :
  (∀ st k, P st → P (stateOf (runRoot st k))) →
  (∀ st, P st →
     P {| results := results st; todo := todo st;
          continuedTasks := continuedTasks st;
          todoTaskGraph := todoTaskGraph st; completed := [];
          world := world st; trace := trace st |}) →
  (∀ st, P st →
     P {| results := results st; todo := todo st;
          continuedTasks := continuedTasks st;
          todoTaskGraph := updateTaskGraph (todoTaskGraph st) (completed st);
          completed := completed st; world := world st;
          trace := trace st ++ [UpdateTaskGraph (completed st)] |}) →
  P (initialState submitted g w []) →
  runAllTasks submitted g w = Some c → P (stateOf c).
Proof.
  intros Hstep Hpre Hpost Hinit Hrun. rewrite runAllTasks_eq in Hrun.
  eapply (while_inv runExecutor P) in Hrun; [done| |done].
  intros st HP. by apply round_preserves.
Qed.

Lemma dispatchedIds_app tr1 tr2 :
  dispatchedIds (tr1 ++ tr2) = dispatchedIds tr1 ++ dispatchedIds tr2.
Proof. apply omap_app. Qed.

Lemma updates_app tr1 tr2 : updates (tr1 ++ tr2) = updates tr1 ++ updates tr2.
Proof. apply omap_app. Qed.

(** The calls made by one pass over a root. *)
Lemma runRoot_block (st : State World) k :
  ∃ b, trace (stateOf (runRoot st k)) = trace st ++ b ∧ taskBlock b
    ∧ updates b = []
    ∧ dispatchedIds b
      = match prop (tasks (todoTaskGraph st)) k with
        | Some task => [id task]
        | None => []
        end.
Proof.
  destruct (prop (tasks (todoTaskGraph st)) k) as [task|] eqn:Hp.
  - destruct (runExecutor task (world st)) as [o w] eqn:He.
    destruct (runRoot_defined runExecutor st k task o w Hp He)
      as (st' & -> & _ & _ & _ & _ & _ & Htr).
    eexists. split; [exact Htr|].
    destruct o as [|[b|] dn]; simpl; split_and!; try done.
    + apply block_error.
    + apply (block_event k task (results st) (if b then success else failure)).
      destruct b; auto.
    + apply block_error.
  - rewrite (runRoot_undefined runExecutor st k Hp). simpl.
    eexists. split; [done|]. split_and!; try done. apply block_undefined.
Qed.

Lemma runRoot_bookkeeping ids (st : State World) k :
  bookkeeping ids st → bookkeeping ids (stateOf (runRoot st k)).
Proof.
  intros (Hdom & Htodo & Hsk & Hrec & Hcont & Hlen).
  destruct (prop (tasks (todoTaskGraph st)) k) as [task|] eqn:Hp.
  - destruct (runExecutor task (world st)) as [o w] eqn:He.
    destruct (runRoot_block st k) as (b & Htr & _ & _ & Hb).
    rewrite Hp in Hb.
    unfold runRoot in *. rewrite Hp, He in *. simpl in Htr |- *.
    unfold bookkeeping. simpl. rewrite Htr, dispatchedIds_app, Hb.
    split_and!.
    + rewrite dom_insert_L, Hdom, list_to_set_app_L. set_solver.
    + rewrite Htodo, list_to_set_app_L. set_solver.
    + intros k'. rewrite elem_of_app, list_elem_of_singleton.
      destruct (decide (id task = k')) as [<-|Hne].
      * rewrite lookup_insert_eq. split; [|tauto].
        intros [= Hs]. by destruct (statusOf_terminal o) as [Ht|Ht];
          rewrite Ht in Hs.
      * rewrite lookup_insert_ne, Hsk by done. split; [|tauto].
        intros [? ?]. split; [done|]. intros [?|?]; congruence.
    + intros k'. rewrite elem_of_app, list_elem_of_singleton.
      intros [Hk'| ->].
      * apply recorded_insert; [apply statusOf_terminal|by apply Hrec].
      * apply recorded_insert_eq, statusOf_terminal.
    + intros t Ht.
      assert (t ∈ continuedTasks st ∨ t = task) as [Hin| ->].
      { destruct o as [|[?|] []]; auto.
        apply elem_of_app in Ht as [?|Ht]; [auto|].
        apply list_elem_of_singleton in Ht. auto. }
      * destruct (Hcont t Hin) as (k' & res & Hev).
        exists k', res. apply elem_of_app. by left.
      * exists k, (results st). rewrite <- Htr.
        rewrite !elem_of_app, !elem_of_cons. tauto.
    + rewrite length_app. simpl.
      destruct o as [|[?|] []]; rewrite ?length_app; simpl; lia.
  - rewrite (runRoot_undefined runExecutor st k Hp). simpl.
    unfold bookkeeping. simpl. rewrite dispatchedIds_app. simpl.
    rewrite app_nil_r. split_and!; try done.
    intros t Ht. destruct (Hcont t Ht) as (k' & res & Hev).
    exists k', res. apply elem_of_app. by left.
Qed.

Lemma runAllTasks_bookkeeping submitted g w c :
  runAllTasks submitted g w = Some c →
  bookkeeping (list_to_set (id <$> submitted)) (stateOf c).
Proof.
  apply run_preserves.
  - intros st k. apply runRoot_bookkeeping.
  - done.
  - intros st (Hdom & Htodo & Hsk & Hrec & Hcont & Hlen).
    unfold bookkeeping. simpl. rewrite dispatchedIds_app. simpl.
    rewrite app_nil_r. split_and!; try done.
    intros t Ht. destruct (Hcont t Ht) as (k' & res & Hev).
    exists k', res. apply elem_of_app. by left.
  - unfold bookkeeping. simpl. split_and!.
    + apply set_eq. intros k. rewrite elem_of_dom.
      rewrite (zipObject_lookup id (λ _, skipped)).
      rewrite elem_of_union, elem_of_list_to_set, elem_of_empty.
      case_decide; split; try tauto; eauto. by intros [? ?].
    + set_solver.
    + intros k. rewrite (zipObject_lookup id (λ _, skipped)).
      rewrite elem_of_list_to_set, elem_of_nil.
      case_decide; split; try tauto; done.
    + intros k Hk. by apply elem_of_nil in Hk.
    + intros t Ht. by apply elem_of_nil in Ht.
    + done.
Qed.

(** X8. Whatever the graph and the adapter, and however the run ends, the
    keys of [results] are the submitted ids together with the ids of the
    tasks handed to the adapter: every submitted task has an entry, and so
    has every dispatched task, submitted or not. *)
Theorem results_keys submitted g w :
  ∃ c, runAllTasks submitted g w = Some c
    ∧ dom (results (stateOf c))
      = list_to_set (id <$> submitted)
        ∪ list_to_set (dispatchedIds (trace (stateOf c))).
Proof.
  destruct (runAllTasks_total runExecutor submitted g w) as [c Hc].
  exists c. split; [done|].
  by destruct (runAllTasks_bookkeeping submitted g w c Hc) as (? & _).
Qed.

(** X9. At the end of a run an id has status skipped exactly when it was
    submitted and no task with that id was handed to the adapter; an id that
    was handed to the adapter has status success or failure. *)
Theorem skipped_iff_never_dispatched submitted g w :
  ∃ c, runAllTasks submitted g w = Some c
    ∧ ∀ k, (results (stateOf c) !! k = Some skipped
            ↔ k ∈ id <$> submitted ∧ k ∉ dispatchedIds (trace (stateOf c)))
         ∧ (k ∈ dispatchedIds (trace (stateOf c)) →
            recorded (results (stateOf c)) k).
Proof.
  destruct (runAllTasks_total runExecutor submitted g w) as [c Hc].
  exists c. split; [done|].
  destruct (runAllTasks_bookkeeping submitted g w c Hc)
    as (_ & _ & Hsk & Hrec & _).
  intros k. split; [|by apply Hrec].
  by rewrite Hsk, elem_of_list_to_set.
Qed.

(** X10. Only streams of tasks that were handed to the adapter are handed
    to the drain, at most one per adapter call. *)
Theorem continued_were_dispatched submitted g w :
  ∃ c, runAllTasks submitted g w = Some c
    ∧ (∀ t, t ∈ continuedTasks (stateOf c) →
         ∃ k res, RunExecutor k t res ∈ trace (stateOf c))
    ∧ length (continuedTasks (stateOf c))
      ≤ length (dispatchedIds (trace (stateOf c))).
Proof.
  destruct (runAllTasks_total runExecutor submitted g w) as [c Hc].
  exists c. split; [done|].
  by destruct (runAllTasks_bookkeeping submitted g w c Hc)
    as (_ & _ & _ & _ & ? & ?).
Qed.

(** ** The life-cycle protocol *)

Lemma startsOf_app tr1 tr2 :
  startsOf (tr1 ++ tr2) = startsOf tr1 ++ startsOf tr2.
Proof. apply omap_app. Qed.

Lemma endsOf_app tr1 tr2 : endsOf (tr1 ++ tr2) = endsOf tr1 ++ endsOf tr2.
Proof. apply omap_app. Qed.

Lemma taskBlock_balanced b :
  taskBlock b →
  startsOf b = endsOf b
  ∧ ∀ code s t, EndTasks code s t ∈ b →
      s ≠ skipped ∧ (code = 0 ↔ s = success).
Proof.
  intros Hb. destruct Hb as [k t res s Hs|k t res|]; (split; [done|]);
    intros code s' t' Hin; decompose_list_elem_of; simplify_eq.
  - destruct Hs as [-> | ->]; done.
  - done.
  - done.
Qed.

Lemma loopTrace_balanced tr :
  loopTrace tr →
  startsOf tr = endsOf tr
  ∧ ∀ code s t, EndTasks code s t ∈ tr →
      s ≠ skipped ∧ (code = 0 ↔ s = success).
Proof.
  induction 1 as [|tr b _ [IHs IHe] Hb|tr c _ [IHs IHe]].
  - split; [done|]. intros code s t Hin. by apply elem_of_nil in Hin.
  - destruct (taskBlock_balanced b Hb) as [Hbs Hbe]. split.
    + by rewrite startsOf_app, endsOf_app, IHs, Hbs.
    + intros code s t Hin. apply elem_of_app in Hin as [Hin|Hin]; eauto.
  - split.
    + rewrite startsOf_app, endsOf_app, IHs. done.
    + intros code s t Hin. apply elem_of_app in Hin as [Hin|Hin]; eauto.
      by apply list_elem_of_singleton in Hin.
Qed.

Lemma runAllTasks_loopTrace submitted g w c :
  runAllTasks submitted g w = Some c → loopTrace (trace (stateOf c)).
Proof.
  apply (run_preserves (λ st, loopTrace (trace st))).
  - intros st k Hst. destruct (runRoot_block st k) as (b & -> & Hb & _).
    by apply loop_block.
  - done.
  - intros st Hst. simpl. by apply loop_update.
  - apply loop_nil.
Qed.

Lemma runRoot_logs_error (st : State World) k task o w :
  prop (tasks (todoTaskGraph st)) k = Some task →
  runExecutor task (world st) = (o, w) →
  ∃ b, trace (stateOf (runRoot st k)) = trace st ++ b ∧ taskBlock b
    ∧ (LoggerError ∈ b ↔ ∀ flag dn, o ≠ Next (Some flag) dn).
Proof.
  intros Hp He.
  destruct (runRoot_defined runExecutor st k task o w Hp He)
    as (st' & -> & _ & _ & _ & _ & _ & Htr).
  eexists. split; [exact Htr|].
  destruct o as [|[b|] dn]; simpl; split.
  - apply block_error.
  - split; [by intros _ flag dn|]. intros _.
    do 3 apply list_elem_of_further. apply list_elem_of_here.
  - apply (block_event k task (results st) (if b then success else failure)).
    destruct b; auto.
  - split; [|intros Hno; by destruct (Hno b dn)].
    intros Hin. decompose_list_elem_of; simplify_eq.
  - apply block_error.
  - split; [by intros _ flag dn'|]. intros _.
    do 3 apply list_elem_of_further. apply list_elem_of_here.
Qed.

(** X11. However a run ends, its calls are a sequence of whole passes of the
    [for] body and of calls of [updateTaskGraph]. A pass is [startTasks],
    [scheduleTask], the adapter call, possibly [logger.error], then
    [endTasks], with status failure and code 1 whenever an error was logged;
    for a root id that names no task the pass has no adapter call. In the
    pass of a task, [logger.error] is called exactly when the adapter raised
    or its first event had no value. *)
Theorem run_trace_shape :
  (∀ submitted g w,
     ∃ c, runAllTasks submitted g w = Some c ∧ loopTrace (trace (stateOf c)))
  ∧ (∀ (st : State World) k task o w,
       prop (tasks (todoTaskGraph st)) k = Some task →
       runExecutor task (world st) = (o, w) →
       ∃ b, trace (stateOf (runRoot st k)) = trace st ++ b ∧ taskBlock b
         ∧ (LoggerError ∈ b ↔ ∀ flag dn, o ≠ Next (Some flag) dn)).
Proof.
  split; [|apply runRoot_logs_error].
  intros submitted g w.
  destruct (runAllTasks_total runExecutor submitted g w) as [c Hc].
  exists c. split; [done|]. by apply (runAllTasks_loopTrace submitted g w).
Qed.

(** X12. The life cycle is told the end of exactly the tasks it was told the
    start of, in the same order, also when the adapter raises or the run
    ends by an exception; the status it is told is never skipped, and the
    code is 0 exactly for success. *)
Theorem life_cycle_balanced submitted g w :
  ∃ c, runAllTasks submitted g w = Some c
    ∧ startsOf (trace (stateOf c)) = endsOf (trace (stateOf c))
    ∧ ∀ code s t, EndTasks code s t ∈ trace (stateOf c) →
        s ≠ skipped ∧ (code = 0 ↔ s = success).
Proof.
  destruct (runAllTasks_total runExecutor submitted g w) as [c Hc].
  exists c. split; [done|].
  apply loopTrace_balanced. by apply (runAllTasks_loopTrace submitted g w).
Qed.

(** ** The graph and the rounds *)

(** X13. The graph the loop holds at the end is the submitted graph when no
    round finished, and otherwise the submitted graph reduced once by all
    the ids completed in the finished rounds. *)
Theorem final_graph submitted g w :
  ∃ c, runAllTasks submitted g w = Some c
    ∧ todoTaskGraph (stateOf c)
      = match updates (trace (stateOf c)) with
        | [] => g
        | cs => updateTaskGraph g (concat cs)
        end.
Proof.
  destruct (runAllTasks_total runExecutor submitted g w) as [c Hc].
  exists c. split; [done|]. revert Hc.
  apply (run_preserves (λ st,
    todoTaskGraph st
    = match updates (trace st) with
      | [] => g
      | cs => updateTaskGraph g (concat cs)
      end)).
  - intros st k Hst.
    destruct (runRoot_frame runExecutor st k) as (Hg & _).
    destruct (runRoot_block st k) as (b & Htr & _ & Hup & _).
    by rewrite Hg, Htr, updates_app, Hup, app_nil_r.
  - done.
  - intros st Hst. cbn [todoTaskGraph trace]. rewrite Hst, updates_app.
    cbn [updates omap list_omap app].
    destruct (updates (trace st)) as [|c0 cs] eqn:E.
    + cbn [app concat]. by rewrite app_nil_r.
    + rewrite updateTaskGraph_app.
      change ((c0 :: cs) ++ [completed st]) with (c0 :: (cs ++ [completed st])).
      cbn [concat].
      change (c0 ++ concat cs) with (concat (c0 :: cs)).
      replace (c0 ++ concat (cs ++ [completed st]))
        with (concat ((c0 :: cs) ++ [completed st])) by done.
      rewrite concat_app. cbn [concat]. by rewrite app_nil_r.
  - done.
Qed.

Lemma round_todo_updates (st : State World) :
  todo (stateOf (round st)) ⊆ todo st
  ∧ length (updates (trace (stateOf (round st))))
    = length (updates (trace st))
      + match round st with Normal _ => 1 | Throw _ => 0 end.
Proof.
  unfold round.
  set (st0 := {| results := results st; todo := todo st;
                 continuedTasks := continuedTasks st;
                 todoTaskGraph := todoTaskGraph st; completed := [];
                 world := world st; trace := trace st |}).
  assert (todo (stateOf (forOf (roots (todoTaskGraph st0)) st0)) ⊆ todo st
          ∧ updates (trace (stateOf (forOf (roots (todoTaskGraph st0)) st0)))
            = updates (trace st)) as [Ht Hu].
  { apply (forOf_preserves (λ s, todo s ⊆ todo st
                                 ∧ updates (trace s) = updates (trace st)));
      [|done].
    intros s k [Hs1 Hs2].
    destruct (runRoot_block s k) as (b & Htr & _ & Hup & _).
    rewrite Htr, updates_app, Hup, app_nil_r. split; [|done].
    destruct (prop (tasks (todoTaskGraph s)) k) as [task|] eqn:Hp.
    - destruct (runExecutor task (world s)) as [o w] eqn:He.
      destruct (runRoot_defined runExecutor s k task o w Hp He)
        as (s' & -> & _ & Htodo & _). simpl. rewrite Htodo. set_solver.
    - by rewrite (runRoot_undefined runExecutor s k Hp). }
  destruct (forOf (roots (todoTaskGraph st0)) st0) as [st1|st1]; simpl in *.
  - split; [done|]. rewrite updates_app, length_app, Hu. done.
  - split; [done|]. rewrite Hu. lia.
Qed.

Lemma while_rounds_bound fuel (prevSize : nat) (st : State World) c :
  while fuel prevSize st = Some c →
  length (updates (trace (stateOf c)))
  ≤ length (updates (trace st))
    + (if decide (size (todo st) < prevSize) then size (todo st) else 0).
Proof.
  revert prevSize st. induction fuel as [|fuel IH]; intros prevSize st.
  - simpl. case_decide; [done|]. intros [= <-]. simpl. lia.
  - rewrite while_S. case_decide as Hc; [|intros [= <-]; simpl; lia].
    destruct (round_todo_updates st) as [Hsub Hlen].
    destruct (round st) as [st1|st1] eqn:Hr; simpl in *.
    + intros Hrun. apply IH in Hrun.
      apply subseteq_size in Hsub.
      rewrite decide_True by lia. case_decide; lia.
    + intros [= <-]. simpl. lia.
Qed.

(** X14. The loop makes at most as many rounds as there are distinct
    submitted ids, hence at most as many as submitted tasks. *)
Theorem rounds_bounded submitted g w :
  ∃ c, runAllTasks submitted g w = Some c
    ∧ length (updates (trace (stateOf c)))
      ≤ size (list_to_set (id <$> submitted) : gset string)
    ∧ length (updates (trace (stateOf c))) ≤ length submitted.
Proof.
  destruct (runAllTasks_total runExecutor submitted g w) as [c Hc].
  exists c. split; [done|].
  assert (length (updates (trace (stateOf c)))
          ≤ size (list_to_set (id <$> submitted) : gset string)) as Hb.
  { rewrite runAllTasks_eq in Hc. apply while_rounds_bound in Hc.
    simpl in Hc. rewrite decide_True in Hc by lia. done. }
  split; [done|]. etrans; [exact Hb|].
  clear. induction submitted as [|t l IH].
  { change (size (∅ : gset string) ≤ 0). by rewrite size_empty. }
  rewrite fmap_cons, list_to_set_cons. simpl.
  rewrite size_union_alt, size_singleton.
  assert (size ((list_to_set (id <$> l) : gset string) ∖ {[id t]})
          ≤ size (list_to_set (id <$> l) : gset string)) as Hle
    by (apply subseteq_size; set_solver).
  lia.
Qed.

(** ** Dispatching at most once *)

Lemma forOf_yielding_trace rs (st : State World) :
  idsAreKeys (todoTaskGraph st) →
  (∀ k t w0, (k, t) ∈ tasks (todoTaskGraph st) →
     ∃ flag dn w1, runExecutor t w0 = (Next (Some flag) dn, w1)) →
  (∀ r, r ∈ rs → r ∈ keys (tasks (todoTaskGraph st))) →
  ∃ st' evs, forOf rs st = Normal st'
    ∧ todoTaskGraph st' = todoTaskGraph st
    ∧ completed st' = completed st ++ rs
    ∧ trace st' = trace st ++ evs
    ∧ dispatchedKeys evs = rs
    ∧ dispatchedIds evs = rs.
Proof.
  revert st. induction rs as [|k rs IH]; intros st Hids Hy Hrs.
  - exists st, []. by rewrite !app_nil_r.
  - assert (k ∈ keys (tasks (todoTaskGraph st))) as Hk
      by apply Hrs, list_elem_of_here.
    apply prop_is_Some in Hk as [task Hp].
    pose proof (prop_Some_elem _ _ _ Hp) as Hin.
    pose proof (Hids k task Hin) as Hid.
    destruct (Hy k task (world st) Hin) as (flag & dn & w1 & He).
    destruct (runRoot_defined runExecutor st k task _ w1 Hp He)
      as (st1 & Hrun & _ & _ & Hg & Hc & _ & Htr).
    destruct (IH st1) as (st' & evs & Hfor & Hg' & Hc' & Htr' & Hk' & Hi').
    { by rewrite Hg. }
    { by rewrite Hg. }
    { intros r Hr. rewrite Hg. by apply Hrs, list_elem_of_further. }
    eexists st', _. split_and!.
    + by rewrite (forOf_cons_normal runExecutor k rs st st1 Hrun).
    + by rewrite Hg'.
    + by rewrite Hc', Hc, Hid, <- app_assoc.
    + rewrite Htr', Htr, <- app_assoc. done.
    + rewrite dispatchedKeys_app, Hk'. done.
    + rewrite dispatchedIds_app, Hi'. simpl. by rewrite Hid.
Qed.

Lemma round_once g0 (st : State World) :
  idsAreKeys g0 →
  (∀ k t w0, (k, t) ∈ tasks g0 →
     ∃ flag dn w1, runExecutor t w0 = (Next (Some flag) dn, w1)) →
  onceInv g0 st →
  ∃ st', round st = Normal st' ∧ onceInv g0 st'.
Proof.
  intros Hids Hy (Hsub & Hnk & Hnr & Hrk & Hnd & Hdis). unfold round.
  set (st0 := {| results := results st; todo := todo st;
                 continuedTasks := continuedTasks st;
                 todoTaskGraph := todoTaskGraph st; completed := [];
                 world := world st; trace := trace st |}).
  destruct (forOf_yielding_trace (roots (todoTaskGraph st0)) st0)
    as (st1 & evs & -> & Hg1 & Hc1 & Htr1 & _ & Hi1).
  { intros k t Hkt. by apply Hids, Hsub. }
  { intros k t w0 Hkt. by apply (Hy k), Hsub. }
  { done. }
  change (todoTaskGraph st0) with (todoTaskGraph st) in *.
  change (trace st0) with (trace st) in *.
  change (completed st0) with (@nil string) in *.
  rewrite app_nil_l in Hc1.
  eexists. split; [done|]. unfold onceInv. cbn [todoTaskGraph trace].
  rewrite Hg1, Hc1, Htr1, !dispatchedIds_app, Hi1.
  change (dispatchedIds [UpdateTaskGraph (roots (todoTaskGraph st))])
    with (@nil string).
  rewrite app_nil_r.
  set (g := todoTaskGraph st) in *. set (rs := roots g) in *.
  assert (∀ k, k ∈ keys (tasks (updateTaskGraph g rs))
               ↔ k ∈ keys (tasks g) ∧ k ∉ rs) as Hkeys.
  { intros k. rewrite updateTaskGraph_tasks. apply elem_of_keys_omit. }
  split_and!.
  - intros k t Hkt. rewrite updateTaskGraph_tasks in Hkt.
    apply elem_of_omit in Hkt as [Hkt _]. by apply Hsub.
  - rewrite updateTaskGraph_tasks, keys_omit. by apply NoDup_filter.
  - rewrite updateTaskGraph_roots, keys_omit.
    by apply NoDup_filter, NoDup_filter.
  - intros r Hr. by apply elem_of_updateTaskGraph_roots in Hr as [? _].
  - apply NoDup_app. split_and!; [done| |done].
    intros k Hk Hr. by apply (Hdis k Hk), Hrk.
  - intros k Hk. rewrite Hkeys. apply elem_of_app in Hk as [Hk|Hk].
    + destruct (Hdis k Hk) as [? ?]. tauto.
    + split; [|tauto]. apply Hrk in Hk.
      apply prop_is_Some in Hk as [t Ht]. apply prop_Some_elem, Hsub in Ht.
      unfold keys. apply list_elem_of_fmap. by exists (k, t).
Qed.

Lemma onceInv_initial submitted g w :
  NoDup (keys (tasks g)) → NoDup (roots g) →
  (∀ r, r ∈ roots g → r ∈ keys (tasks g)) →
  onceInv g (initialState (World:=World) submitted g w []).
Proof.
  intros Hnk Hnr Hrk. unfold onceInv. simpl. split_and!; try done.
  - apply NoDup_nil_2.
  - intros k Hk. by apply elem_of_nil in Hk.
Qed.

(** X16. On a graph whose tasks are stored under their ids, with distinct
    keys and distinct roots that are tasks of the graph, and with an adapter
    whose every call for a task of the graph yields a first event carrying
    a flag, the run returns normally and no task id is handed to the
    adapter twice. *)
Theorem dispatched_at_most_once submitted g w :
  idsAreKeys g → NoDup (keys (tasks g)) → NoDup (roots g) →
  (∀ r, r ∈ roots g → r ∈ keys (tasks g)) →
  (∀ k t w0, (k, t) ∈ tasks g →
     ∃ flag dn w1, runExecutor t w0 = (Next (Some flag) dn, w1)) →
  ∃ st, runAllTasks submitted g w = Some (Normal st)
    ∧ NoDup (dispatchedIds (trace st)).
Proof.
  intros Hids Hnk Hnr Hrk Hy.
  destruct (runAllTasks_total runExecutor submitted g w) as [c Hc].
  rewrite Hc. rewrite runAllTasks_eq in Hc.
  eapply (while_normal runExecutor (onceInv g)) in Hc.
  - destruct Hc as (st & -> & (_ & _ & _ & _ & Hnd & _) & _). eauto.
  - intros st Hst. by apply (round_once g).
  - by apply onceInv_initial.
Qed.

(** X19. On an acyclic, fully declared graph with distinct keys and distinct
    roots, whose tasks are stored under their ids, whose roots are exactly
    its tasks without dependencies and whose task ids are exactly the
    submitted ids, with an adapter whose every call for a task of the graph
    yields a first event carrying a flag: every task of the graph is handed
    to the adapter exactly once. *)
Theorem dispatched_exactly_once submitted g w :
  idsAreKeys g → declared g → rootsExact g → acyclic g →
  NoDup (keys (tasks g)) → NoDup (roots g) →
  (∀ k, k ∈ keys (tasks g) ↔ k ∈ id <$> submitted) →
  (∀ k t w0, (k, t) ∈ tasks g →
     ∃ flag dn w1, runExecutor t w0 = (Next (Some flag) dn, w1)) →
  ∃ st, runAllTasks submitted g w = Some (Normal st)
    ∧ dispatchedIds (trace st) ≡ₚ keys (tasks g).
Proof.
  intros Hids Hdecl Hroots Hacyc Hnk Hnr Hnodes Hy.
  destruct (runAllTasks_total runExecutor submitted g w) as [c Hc].
  pose proof (runAllTasks_bookkeeping submitted g w c Hc)
    as (_ & Htodo & _).
  rewrite Hc. rewrite runAllTasks_eq in Hc. cbv zeta in Hc.
  set (st0 := initialState submitted g w []) in *.
  set (ids := list_to_set (id <$> submitted) : gset string) in *.
  assert (schedInv g ids st0) as Hinv.
  { split_and!; try done.
    - intros k. unfold st0. simpl. by rewrite elem_of_list_to_set, Hnodes.
    - apply set_eq. intros k. rewrite elem_of_dom. unfold st0, ids. simpl.
      rewrite (zipObject_lookup id (λ _, skipped)), elem_of_list_to_set.
      case_decide; [by split; eauto|]. split; [by intros [? ?]|done].
    - auto. }
  destruct (while_schedInv runExecutor g ids (size (todo st0) + 1)
              (size (todo st0) + 1) st0 Hy Hinv)
    as (st & Hrun & _ & Hdone); [lia|lia|].
  rewrite Hrun in Hc. injection Hc as <-. simpl in Htodo.
  eapply (while_normal runExecutor (onceInv g)) in Hrun.
  - destruct Hrun as (st' & [= <-] & (_ & _ & _ & _ & Hnd & Hdis) & _).
    exists st. split; [done|].
    apply NoDup_Permutation; [done|done|]. intros k. split.
    + intros Hk. by apply Hdis in Hk as [? _].
    + intros Hk. apply size_empty_inv in Hdone.
      destruct (decide (k ∈ dispatchedIds (trace st))) as [|Hn]; [done|].
      exfalso. apply (not_elem_of_empty (C:=gset string) k).
      rewrite <- Hdone, Htodo.
      apply elem_of_difference. subst ids. rewrite !elem_of_list_to_set.
      split; [by apply Hnodes|done].
  - intros s Hs. by apply (round_once g).
  - apply onceInv_initial; [done|done|].
    intros r Hr. by apply Hroots in Hr as [? _].
Qed.

(** ** Edge cases of a run *)

(** X17. With no task submitted the loop is not entered, whatever the graph
    holds: no life-cycle call and no adapter call is made, [results] is
    empty and the graph is left as it was. *)
Theorem nothing_submitted g w :
  runAllTasks [] g w = Some (Normal (initialState [] g w []))
  ∧ results (initialState [] g w []) = ∅
  ∧ trace (initialState [] g w []) = [].
Proof.
  split; [|done]. rewrite runAllTasks_eq. cbv zeta.
  change (size (todo (initialState [] g w []))) with (size (∅ : gset string)).
  rewrite size_empty. change (0 + 1) with 1.
  rewrite while_S, decide_False; [done|].
  change (todo (initialState [] g w [])) with (∅ : gset string).
  rewrite size_empty. lia.
Qed.

Lemma forOf_undefined_root rs1 r rs2 (st : State World) :
  (∀ x, x ∈ rs1 → x ∈ keys (tasks (todoTaskGraph st))) →
  r ∉ keys (tasks (todoTaskGraph st)) →
  ∃ st', forOf (rs1 ++ r :: rs2) st = Throw st'
    ∧ todoTaskGraph st' = todoTaskGraph st
    ∧ dispatchedKeys (trace st') = dispatchedKeys (trace st) ++ rs1
    ∧ updates (trace st') = updates (trace st).
Proof.
  revert st. induction rs1 as [|k rs1 IH]; intros st Hrs1 Hr.
  - apply prop_None in Hr. simpl.
    rewrite (runRoot_undefined runExecutor st r Hr).
    eexists. split; [done|]. simpl.
    rewrite dispatchedKeys_app, updates_app. simpl. by rewrite !app_nil_r.
  - assert (k ∈ keys (tasks (todoTaskGraph st))) as Hk
      by apply Hrs1, list_elem_of_here.
    apply prop_is_Some in Hk as [task Hp].
    destruct (runExecutor task (world st)) as [o w1] eqn:He.
    destruct (runRoot_defined runExecutor st k task o w1 Hp He)
      as (st1 & Hrun & _ & _ & Hg & _ & _ & Htr).
    destruct (IH st1) as (st' & Hfor & Hg' & Hk' & Hu').
    { intros x Hx. rewrite Hg. by apply Hrs1, list_elem_of_further. }
    { by rewrite Hg. }
    exists st'. split_and!.
    + change ((k :: rs1) ++ r :: rs2) with (k :: (rs1 ++ r :: rs2)).
      by rewrite (forOf_cons_normal runExecutor k _ st st1 Hrun).
    + by rewrite Hg'.
    + rewrite Hk', Htr, dispatchedKeys_app.
      destruct o as [|[?|] ?]; simpl; by rewrite <- app_assoc.
    + rewrite Hu', Htr, updates_app.
      destruct o as [|[?|] ?]; simpl; by rewrite app_nil_r.
Qed.

(** X18. When a task is submitted and some root of the graph names no task,
    the run ends by an exception in its first round: the adapter was called
    for the roots listed before that one and for no other, no reduction was
    made, and the graph is the submitted one. *)
Theorem undefined_root_raises submitted g w rs1 r rs2 :
  submitted ≠ [] →
  roots g = rs1 ++ r :: rs2 →
  (∀ x, x ∈ rs1 → x ∈ keys (tasks g)) →
  r ∉ keys (tasks g) →
  ∃ st, runAllTasks submitted g w = Some (Throw st)
    ∧ dispatchedKeys (trace st) = rs1
    ∧ updates (trace st) = []
    ∧ todoTaskGraph st = g.
Proof.
  intros Hsub Hroots Hrs1 Hr. rewrite runAllTasks_eq. cbv zeta.
  set (st0 := initialState submitted g w []).
  assert (0 < size (todo st0)) as Hpos.
  { destruct (size (todo st0)) eqn:E; [|lia]. exfalso. apply Hsub.
    apply list_to_set_size_0 in E. by destruct submitted. }
  rewrite Nat.add_1_r, while_S, decide_True by lia.
  unfold round. cbn [todoTaskGraph st0 initialState]. rewrite Hroots.
  match goal with |- context [forOf _ ?s] =>
    destruct (forOf_undefined_root rs1 r rs2 s) as (st' & -> & Hg & Hk & Hu)
  end; [done|done|].
  exists st'. split; [done|]. by split_and!.
Qed.

End RunnerMore.

(** ** The further theorems at the sample inputs *)

(** Witness for X1: [A] listed twice. *)
Lemma updateTaskGraph_same_ids_witness :
  updateTaskGraph graphAB ["A"; "A"] = updateTaskGraph graphAB ["A"].
Proof.
  apply (updateTaskGraph_same_ids graphAB ["A"; "A"] ["A"]).
  intros x. rewrite !elem_of_cons, elem_of_nil. tauto.
Defined.

(** Witness for X2: [A] completed again. *)
Lemma updateTaskGraph_absorbs_witness :
  updateTaskGraph (updateTaskGraph graphAB ["A"]) ["A"]
  = updateTaskGraph graphAB ["A"].
Proof. by apply (updateTaskGraph_absorbs graphAB ["A"] ["A"]). Defined.

(** Witness for X3: completing [A] in the two-task graph. *)
Lemma updateTaskGraph_preserves_witness :
  idsAreKeys (updateTaskGraph graphAB ["A"])
  ∧ NoDup (keys (tasks (updateTaskGraph graphAB ["A"])))
  ∧ declared (updateTaskGraph graphAB ["A"])
  ∧ acyclic (updateTaskGraph graphAB ["A"]).
Proof.
  destruct (updateTaskGraph_preserves graphAB ["A"])
    as (_ & Hids & Hnd & Hdecl & Hacyc).
  split_and!.
  - apply Hids, graphAB_idsAreKeys.
  - apply Hnd, graphAB_keys_NoDup.
  - apply Hdecl, graphAB_declared.
  - apply Hacyc, graphAB_acyclic.
Defined.

(** Witness for X4: both tasks completed. *)
Lemma updateTaskGraph_all_witness :
  updateTaskGraph graphAB ["A"; "B"]
  = {| tasks := []; dependencies := ∅; roots := [] |}.
Proof. by apply (updateTaskGraph_all graphAB ["A"; "B"]). Defined.

(** Witness for X16: an adapter that always yields success. *)
Lemma dispatched_at_most_once_witness :
  ∃ st, runAllTasks (yields true) [taskA; taskB] graphAB () = Some (Normal st)
    ∧ NoDup (dispatchedIds (trace st)).
Proof.
  apply (dispatched_at_most_once (yields true) [taskA; taskB] graphAB ()).
  - apply graphAB_idsAreKeys.
  - apply graphAB_keys_NoDup.
  - apply graphAB_roots_NoDup.
  - apply graphAB_roots_keys.
  - intros k t w0 _. by exists true, false, w0.
Defined.

(** Witness for X18: the second root [Z] names no task. *)
Lemma undefined_root_raises_witness :
  ∃ st, runAllTasks (yields true) [taskA] graphBadRoot () = Some (Throw st)
    ∧ dispatchedKeys (trace st) = ["A"]
    ∧ updates (trace st) = []
    ∧ todoTaskGraph st = graphBadRoot.
Proof.
  apply (undefined_root_raises (yields true) [taskA] graphBadRoot ()
           ["A"] "Z" []).
  - done.
  - done.
  - intros x Hx. apply list_elem_of_singleton in Hx as ->.
    apply list_elem_of_here.
  - intros Hz. simpl in Hz. by apply list_elem_of_singleton in Hz.
Defined.

(** Witness for X19: the same run as for X16. *)
Lemma dispatched_exactly_once_witness :
  ∃ st, runAllTasks (yields true) [taskA; taskB] graphAB () = Some (Normal st)
    ∧ dispatchedIds (trace st) ≡ₚ keys (tasks graphAB).
Proof.
  apply (dispatched_exactly_once (yields true) [taskA; taskB] graphAB ()).
  - apply graphAB_idsAreKeys.
  - apply graphAB_declared.
  - apply graphAB_rootsExact.
  - apply graphAB_acyclic.
  - apply graphAB_keys_NoDup.
  - apply graphAB_roots_NoDup.
  - done.
  - intros k t w0 _. by exists true, false, w0.
Defined.

(** Witness for X11: the adapter raises for [A]. *)
Lemma run_trace_shape_witness :
  ∃ b, trace (stateOf (runRoot raisesOnA
                         (initialState [taskA; taskB] graphAB () []) "A"))
       = b
    ∧ taskBlock b ∧ LoggerError ∈ b.
Proof.
  destruct (run_trace_shape raisesOnA) as [_ Hstep].
  destruct (Hstep (initialState [taskA; taskB] graphAB () []) "A" taskA
              Raise () eq_refl eq_refl) as (b & Htr & Hb & Hlog).
  exists b. split_and!; [done|done|]. by apply Hlog.
Defined.
